(** * Chess_Pygame: the search core of [Chess.py]

    A shallow embedding of [evaluate_board], [minimax] and [get_best_move]
    (Chess.py, lines 32-78) together with the properties of the search that
    the specification states.

    The chess rules library ([chess.Board]) is external to the repository:
    it is taken as an interface ([Oracle]), and what the proofs need of it is
    stated as explicit laws.  The board is one mutable object that the search
    pushes moves on and pops them from; it is modelled by explicit state
    passing, together with a ghost trace of the oracle calls that mutate or
    enumerate and of the entries into [minimax]. *)

From Stdlib Require Import ZArith List Bool Lia.
From Stdlib Require String Ascii.
Import ListNotations.
Import String.StringSyntax.
Delimit Scope string_scope with string.
Local Open Scope Z_scope.

(** ** Scores

    [evaluate_board] returns a Python [int]; [minimax] and [get_best_move]
    mix such integers with [float('-inf')] and [float('inf')].  Python
    compares an [int] with an infinite [float] exactly. *)

Inductive Score : Type :=
| NegInf
| Fin (z : Z)
| PosInf.

(** Python's [a < b]. *)
Definition slt (a b : Score) : bool :=
  match a, b with
  | NegInf, NegInf => false
  | NegInf, _ => true
  | Fin _, NegInf => false
  | Fin x, Fin y => x <? y
  | Fin _, PosInf => true
  | PosInf, _ => false
  end.

(** Python's [a <= b]. *)
Definition sle (a b : Score) : bool :=
  match a, b with
  | NegInf, _ => true
  | Fin _, NegInf => false
  | Fin x, Fin y => x <=? y
  | Fin _, PosInf => true
  | PosInf, PosInf => true
  | PosInf, _ => false
  end.

(** Python's [max(a, b)]: the first argument unless the second is greater. *)
Definition py_max (a b : Score) : Score := if slt a b then b else a.

(** Python's [min(a, b)]: the first argument unless the second is smaller. *)
Definition py_min (a b : Score) : Score := if slt b a then b else a.

Definition is_finite (a : Score) : bool :=
  match a with Fin _ => true | _ => false end.

(** What a fail-soft search with window [(al, be)] promises of its result
    [r] about the exact value [v]: an upper bound when it fails low, the
    value itself inside the window, a lower bound when it fails high. *)
Definition bracket (r v al be : Score) : Prop :=
  (sle r al = true -> sle v r = true) /\
  (slt al r = true -> slt r be = true -> v = r) /\
  (sle be r = true -> sle r v = true).

(** ** The rules oracle *)

(** [chess.WHITE] is [True] and [chess.BLACK] is [False]. *)
Definition WHITE : bool := true.
Definition BLACK : bool := false.

(** [chess.PAWN] ... [chess.KING] are the integers 1 ... 6. *)
Definition PAWN : Z := 1.
Definition KNIGHT : Z := 2.
Definition BISHOP : Z := 3.
Definition ROOK : Z := 4.
Definition QUEEN : Z := 5.
Definition KING : Z := 6.

(** What the search uses of a [chess.Board]: [board.turn],
    [board.legal_moves], [board.push(move)], [board.pop()] (which raises
    [IndexError] on an empty move stack: [None]), [board.is_game_over()] and
    [board.pieces(piece_type, color)], a set of squares. *)
Class Oracle : Type := {
  Board : Type;
  Move : Type;
  turn : Board -> bool;
  legal_moves : Board -> list Move;
  push : Board -> Move -> Board;
  pop : Board -> option Board;
  is_game_over : Board -> bool;
  pieces : Board -> Z -> bool -> list Z
}.

(** [range(lo, hi)]. *)
Definition range (lo hi : Z) : list Z :=
  map (fun i => lo + Z.of_nat i) (seq 0 (Z.to_nat (hi - lo))).

(** [len] of a square set. *)
Definition len (squares : list Z) : Z := Z.of_nat (length squares).

Section Search.

Context {orc : Oracle}.

(** *** Laws of the oracle, assumed only where a theorem names them *)

(** [pop] undoes the last [push] and restores the board exactly. *)
Definition pop_undoes_push : Prop :=
  forall (b : Board) (m : Move), pop (push b m) = Some b.

(** A position without legal moves is checkmate or stalemate, hence
    game-over. *)
Definition moves_unless_over : Prop :=
  forall b : Board, is_game_over b = false -> legal_moves b <> [].

(** Every move hands the turn to the other side. *)
Definition push_flips_turn : Prop :=
  forall (b : Board) (m : Move), turn (push b m) = negb (turn b).

(** ** State, trace and the monad of the search *)

(** Ghost events: the oracle calls that enumerate moves or mutate the board,
    and every entry into [minimax] with its arguments. *)
Inductive event : Type :=
| EvLegalMoves
| EvPush (m : Move)
| EvPop
| EvSearch (depth : Z) (alpha beta : Score) (is_maximizing : bool).

Record state : Type := mkState {
  board : Board;
  trace : list event
}.

Inductive exn : Type :=
| IndexError.

(** A call returns a value in a new state, raises, or exhausts the bound on
    the recursion depth. *)
Inductive outcome (A : Type) : Type :=
| Ok (a : A) (s : state)
| Raised (e : exn) (s : state)
| OutOfFuel.

Arguments Ok {A} a s.
Arguments Raised {A} e s.
Arguments OutOfFuel {A}.

Definition M (A : Type) : Type := state -> outcome A.

Definition ret {A} (a : A) : M A := fun s => Ok a s.

Definition bind {A B} (c : M A) (k : A -> M B) : M B :=
  fun s =>
    match c s with
    | Ok a s' => k a s'
    | Raised e s' => Raised e s'
    | OutOfFuel => OutOfFuel
    end.

Notation "x <- c ;; k" := (bind c (fun x => k))
  (at level 61, c at next level, right associativity).
Notation "c ;; k" := (bind c (fun _ => k))
  (at level 61, right associativity).

Definition log (e : event) : M unit :=
  fun s => Ok tt (mkState (board s) (trace s ++ [e])).

(** Reading the board. *)
Definition gets {A} (f : Board -> A) : M A := fun s => Ok (f (board s)) s.

(** [list(board.legal_moves)]. *)
Definition list_legal_moves : M (list Move) :=
  log EvLegalMoves ;; gets legal_moves.

(** [board.push(move)]. *)
Definition do_push (move : Move) : M unit :=
  fun s => Ok tt (mkState (push (board s) move) (trace s ++ [EvPush move])).

(** [board.pop()]. *)
Definition do_pop : M unit :=
  fun s =>
    match pop (board s) with
    | Some b => Ok tt (mkState b (trace s ++ [EvPop]))
    | None => Raised IndexError s
    end.

(** A [for] loop over a list with loop-carried variables [st]; the body
    says whether the loop goes on or [break]s. *)
Inductive loop_ctl (S : Type) : Type :=
| Continue (st : S)
| Break (st : S).

Arguments Continue {S} st.
Arguments Break {S} st.

Fixpoint for_each {X S} (xs : list X) (body : X -> S -> M (loop_ctl S))
    (st : S) : M S :=
  match xs with
  | [] => ret st
  | x :: xs' =>
      c <- body x st ;;
      match c with
      | Continue st' => for_each xs' body st'
      | Break st' => ret st'
      end
  end.

(** ** [evaluate_board] (Chess.py, 32-36) *)

(** The value lines 33-36 compute on the board [b]: the loop over
    [range(1, 7)] with the accumulator [eval], which starts at 0. *)
Definition eval_loop (b : Board) : Z :=
  fold_left
    (fun eval piece_type =>
       eval + (len (pieces b piece_type WHITE) - len (pieces b piece_type BLACK)))
    (range 1 7) 0.

Definition evaluate_board : M Z := gets eval_loop.

(** ** [minimax] (Chess.py, 39-62)

    [fuel] bounds the depth of the recursion; [depth] is the Python integer
    of the source, which the code compares with 0 and decrements. *)

(** The variables the loop of [minimax] carries: [best_eval], [alpha],
    [beta]. *)
Definition window : Type := (Score * Score * Score)%type.

(** Lines 52-57: the update of [best_eval] and of the window by the value
    [eval] of a child. *)
Definition update (is_maximizing : bool) (eval : Score) (w : window) : window :=
  let '(best_eval, alpha, beta) := w in
  if is_maximizing
  then (py_max best_eval eval, py_max alpha eval, beta)
  else (py_min best_eval eval, alpha, py_min beta eval).

(** Lines 59-60. *)
Definition cutoff (w : window) : bool :=
  let '(_, alpha, beta) := w in sle beta alpha.

(** Lines 48-60, one iteration for [move]; [search] is the recursive call. *)
Definition minimax_body
    (search : Z -> Score -> Score -> bool -> M Score)
    (depth : Z) (is_maximizing : bool) (move : Move) (w : window)
    : M (loop_ctl window) :=
  let '(_, alpha, beta) := w in
  do_push move ;;
  eval <- search (depth - 1) alpha beta (negb is_maximizing) ;;
  do_pop ;;
  let w' := update is_maximizing eval w in
  if cutoff w' then ret (Break w') else ret (Continue w').

Fixpoint minimax (fuel : nat) (depth : Z) (alpha beta : Score)
    (is_maximizing : bool) : M Score :=
  match fuel with
  | O => fun _ => OutOfFuel
  | S fuel' =>
      log (EvSearch depth alpha beta is_maximizing) ;;
      over <- gets is_game_over ;;
      if (depth =? 0) || over then
        eval <- evaluate_board ;; ret (Fin eval)
      else
        moves <- list_legal_moves ;;
        let best_eval := if is_maximizing then NegInf else PosInf in
        w <- for_each moves (minimax_body (minimax fuel') depth is_maximizing)
               (best_eval, alpha, beta) ;;
        ret (fst (fst w))
  end.

(** ** [get_best_move] (Chess.py, 65-78)

    The loop runs over the legal moves of the board as it is when the loop
    starts ([board.legal_moves] is enumerated while the body pushes and
    pops; every iteration hands the board back as it got it, as
    [get_best_move_body_restored] shows).  [board.turn] is read where the
    source reads it: once before the loop, once for the last argument of
    the call of [minimax], which Python evaluates after
    [board.push(move)], and again in the comparison that follows
    [board.pop()]. *)

Definition get_best_move_body (fuel : nat) (depth : Z) (move : Move)
    (st : option Move * Score) : M (loop_ctl (option Move * Score)) :=
  let '(best_move, best_value) := st in
  do_push move ;;
  pushed_turn <- gets turn ;;
  board_value <- minimax fuel (depth - 1) NegInf PosInf (negb pushed_turn) ;;
  do_pop ;;
  t <- gets turn ;;
  if (t && slt best_value board_value) || (negb t && slt board_value best_value)
  then ret (Continue (Some move, board_value))
  else ret (Continue (best_move, best_value)).

Definition get_best_move (fuel : nat) (depth : Z) : M (option Move) :=
  t <- gets turn ;;
  let best_value := if t then NegInf else PosInf in
  moves <- list_legal_moves ;;
  st <- for_each moves (get_best_move_body fuel depth) (None, best_value) ;;
  ret (fst st).

(** ** Reference definitions that follow the specification's words *)

(** Number of pieces of kind [piece_type] that [color] has on [b]. *)
Definition count (b : Board) (piece_type : Z) (color : bool) : Z :=
  len (pieces b piece_type color).

(** Specification 4.1: the sum over the six piece kinds of the number of
    White pieces minus the number of Black pieces, with unit weight. *)
Definition material (b : Board) : Z :=
  (count b PAWN WHITE - count b PAWN BLACK)
  + (count b KNIGHT WHITE - count b KNIGHT BLACK)
  + (count b BISHOP WHITE - count b BISHOP BLACK)
  + (count b ROOK WHITE - count b ROOK BLACK)
  + (count b QUEEN WHITE - count b QUEEN BLACK)
  + (count b KING WHITE - count b KING BLACK).

(** Specification 8, pruning equivalence: the unpruned exhaustive minimax
    over the game tree below [b], [n] plies deep, with the same evaluation
    at the leaves and the same flipping of the flag, and no window. *)
Fixpoint exhaustive_minimax (n : nat) (b : Board) (is_maximizing : bool)
    : Score :=
  match n with
  | O => Fin (material b)
  | S n' =>
      if is_game_over b then Fin (material b)
      else
        fold_left
          (fun best move =>
             (if is_maximizing then py_max else py_min) best
               (exhaustive_minimax n' (push b move) (negb is_maximizing)))
          (legal_moves b)
          (if is_maximizing then NegInf else PosInf)
  end.

(** Specification 4.3 as claim C1 reads it: [get_best_move] with the flag
    of the children flipped relative to the side to move at the root. *)
Definition select_body_spec (fuel : nat) (depth : Z) (root_turn : bool)
    (move : Move) (st : option Move * Score)
    : M (loop_ctl (option Move * Score)) :=
  let '(best_move, best_value) := st in
  do_push move ;;
  board_value <- minimax fuel (depth - 1) NegInf PosInf (negb root_turn) ;;
  do_pop ;;
  if (root_turn && slt best_value board_value)
     || (negb root_turn && slt board_value best_value)
  then ret (Continue (Some move, board_value))
  else ret (Continue (best_move, best_value)).

Definition select_best_move_spec (fuel : nat) (depth : Z) : M (option Move) :=
  t <- gets turn ;;
  let best_value := if t then NegInf else PosInf in
  moves <- list_legal_moves ;;
  st <- for_each moves (select_body_spec fuel depth t) (None, best_value) ;;
  ret (fst st).

(** ** The value of [minimax] as a function of the board

    When [pop] undoes [push], a call of [minimax] at depth [n] leaves the
    board as it was, and its value is this function of the board. *)

Fixpoint ab_loop (child : Move -> Score -> Score -> Score)
    (is_maximizing : bool) (moves : list Move) (w : window) : window :=
  match moves with
  | [] => w
  | move :: moves' =>
      let w' := update is_maximizing (child move (snd (fst w)) (snd w)) w in
      if cutoff w' then w' else ab_loop child is_maximizing moves' w'
  end.

Fixpoint ab (n : nat) (b : Board) (alpha beta : Score) (is_maximizing : bool)
    : Score :=
  match n with
  | O => Fin (eval_loop b)
  | S n' =>
      if is_game_over b then Fin (eval_loop b)
      else
        fst (fst (ab_loop
                    (fun move a be => ab n' (push b move) a be (negb is_maximizing))
                    is_maximizing (legal_moves b)
                    (if is_maximizing then NegInf else PosInf, alpha, beta)))
  end.

(** What the loop of [get_best_move] carries: nothing chosen yet and the
    infinite initial value of the side to move, or a chosen move and a
    finite value. *)
Definition carried (root_turn : bool) (st : option Move * Score) : Prop :=
  (fst st = None /\ snd st = (if root_turn then NegInf else PosInf))
  \/ (fst st <> None /\ is_finite (snd st) = true).

(** Net number of moves a trace leaves applied on top of [k] applied ones;
    [None] when it pops more than was pushed. *)
Fixpoint net (tr : list event) (k : nat) : option nat :=
  match tr with
  | [] => Some k
  | EvPush _ :: tr' => net tr' (S k)
  | EvPop :: tr' => match k with O => None | S k' => net tr' k' end
  | _ :: tr' => net tr' k
  end.

(** Every entry into [minimax] that the trace records has a depth between
    0 and [n]. *)
Definition depths_within (n : Z) (tr : list event) : Prop :=
  Forall (fun e => match e with
                   | EvSearch d _ _ _ => 0 <= d <= n
                   | _ => True
                   end) tr.

(** [s'] continues the trace of [s] with entries of depth at most [n]. *)
Definition continues_within (n : Z) (s s' : state) : Prop :=
  exists tr, trace s' = trace s ++ tr /\ depths_within n tr.

(** Every push of the trace is undone by a later pop of the trace. *)
Definition balanced (tr : list event) : Prop := net tr 0 = Some 0%nat.

(** [s'] is [s] with the same board and a longer trace whose pushes are all
    undone. *)
Definition restored (s s' : state) : Prop :=
  board s' = board s /\
  exists tr, trace s' = trace s ++ tr /\ balanced tr.

End Search.

Arguments Ok {orc A} a s.
Arguments Raised {orc A} e s.
Arguments OutOfFuel {orc A}.
Arguments Continue {S} st.
Arguments Break {S} st.

(** ** A small concrete oracle: explicit game trees

    A position is a node with the numbers of White and Black pawns on it, a
    game-over flag and its successor positions; a move is the index of a
    successor.  The board keeps the stack of the positions left by [push],
    as [chess.Board] does. *)

Module Toy.

Local Unset Elimination Schemes.
Inductive tree : Type :=
| Node (white black : nat) (over : bool) (kids : list tree).
Local Set Elimination Schemes.

Definition kids_of (t : tree) : list tree :=
  match t with Node _ _ _ ks => ks end.

Record toy_board : Type := mkBoard {
  pos : tree;
  white_to_move : bool;
  stack : list (tree * bool)
}.

Definition toy_push (b : toy_board) (m : nat) : toy_board :=
  mkBoard (nth m (kids_of (pos b)) (Node 0 0 true []))
          (negb (white_to_move b))
          ((pos b, white_to_move b) :: stack b).

Definition toy_pop (b : toy_board) : option toy_board :=
  match stack b with
  | [] => None
  | (p, t) :: st => Some (mkBoard p t st)
  end.

Definition toy_over (b : toy_board) : bool :=
  match pos b with
  | Node _ _ over ks => over || match ks with [] => true | _ => false end
  end.

Definition toy_pieces (b : toy_board) (piece_type : Z) (color : bool) : list Z :=
  match pos b with
  | Node w k _ _ =>
      if piece_type =? PAWN
      then map Z.of_nat (if color then seq 8 w else seq 48 k)
      else []
  end.

#[export] Instance toy : Oracle := {
  Board := toy_board;
  Move := nat;
  turn := white_to_move;
  legal_moves := fun b => seq 0 (length (kids_of (pos b)));
  push := toy_push;
  pop := toy_pop;
  is_game_over := toy_over;
  pieces := toy_pieces
}.

(** A leaf with [w] White and [k] Black pawns. *)
Definition leaf (w k : nat) : tree := Node w k false [].

(** White to move; the first move lets Black win a pawn, the second does
    not. *)
Definition hanging : tree :=
  Node 2 2 false
    [ Node 2 2 false [leaf 1 2; leaf 2 2];
      Node 2 2 false [leaf 2 2] ].

Definition start (t : tree) (white : bool) : state :=
  mkState (mkBoard t white []) [].

End Toy.

(** * More of the search: what a caller observes *)

Section Observations.

Context {orc : Oracle}.

(** What a caller sees of a call: its value and the board it leaves, the
    exception and the board it leaves, or the exhausted recursion.  The
    ghost trace is not part of it. *)
Inductive observation (A : Type) : Type :=
| Returned (a : A) (b : Board)
| Failed (e : exn) (b : Board)
| Exhausted.

Definition observe {A} (o : outcome A) : observation A :=
  match o with
  | Ok a s => Returned A a (board s)
  | Raised e s => Failed A e (board s)
  | OutOfFuel => Exhausted A
  end.

(** The score [get_best_move] compares for the root move [m] at depth
    [depth >= 1]: the exhaustive minimax value of the position after [m],
    [depth - 1] plies deep, with the flag the code passes there. *)
Definition root_value (depth : Z) (b : Board) (m : Move) : Score :=
  exhaustive_minimax (Z.to_nat (depth - 1)) (push b m)
    (negb (turn (push b m))).

(** Line 74: [value] strictly improves on [best] for the side [root_turn]. *)
Definition improves (root_turn : bool) (value best : Score) : bool :=
  (root_turn && slt best value) || (negb root_turn && slt value best).

(** Lines 74-76 on values: the choice after seeing [m]. *)
Definition choose (root_turn : bool) (value : Move -> Score)
    (st : option Move * Score) (m : Move) : option Move * Score :=
  if improves root_turn (value m) (snd st) then (Some m, value m) else st.

(** What the loop has chosen after the moves [seen]: nothing when none
    was seen; else a move of [seen] whose value every earlier move is
    strictly worse than, and no later one improves on. *)
Definition earliest_best (t : bool) (value : Move -> Score)
    (seen : list Move) (st : option Move * Score) : Prop :=
  (seen = [] /\ st = (None, if t then NegInf else PosInf))
  \/ exists pre m post,
       seen = pre ++ m :: post /\ st = (Some m, value m) /\
       (forall x, In x pre -> improves t (value m) (value x) = true) /\
       (forall x, In x post -> improves t (value x) (value m) = false).

End Observations.

Arguments Returned {orc A} a b.
Arguments Failed {orc A} e b.
Arguments Exhausted {orc A}.


(** * The game around the search: [draw_board], [display_move_summary],
    [play_move_sound] and the event loop of [play_game] *)

(** Lines 6-8. *)
Definition WIDTH : Z := 512.
Definition HEIGHT : Z := 512.
Definition DIMENSION : Z := 8.
Definition SQ_SIZE : Z := WIDTH / DIMENSION.

(** [str.upper()] on ASCII text. *)
Definition ascii_upper (c : Ascii.ascii) : Ascii.ascii :=
  let n := Ascii.nat_of_ascii c in
  if ((97 <=? n) && (n <=? 122))%nat then Ascii.ascii_of_nat (n - 32) else c.

Fixpoint str_upper (s : String.string) : String.string :=
  match s with
  | String.EmptyString => String.EmptyString
  | String.String c s' => String.String (ascii_upper c) (str_upper s')
  end.

(** A [chess.Piece]. *)
Record Piece : Type := mkPiece {
  kind : Z;
  color : bool
}.

(** The five sounds [load_resources] returns (lines 24-29). *)
Inductive sound : Type :=
| move_sound
| capture_sound
| check_sound
| checkmate_sound
| castle_sound.

(** What the game does to the window and the mixer. *)
Inductive effect : Type :=
| FillRect (rgb : Z * Z * Z) (x y w h : Z)
| Blit (image : String.string) (x y : Z)
| TextAt (size : Z) (text : String.string) (x y : Z)
| TextCentered (size : Z) (text : String.string) (x y : Z)
| Flip
| Delay (ms : Z)
| Play (s : sound).

(** The exceptions the drawing and the event handling can raise themselves:
    a key missing from [IMAGES], an attribute of [None]. *)
Inductive ui_exn : Type :=
| KeyError
| AttributeError.

(** Line 18: the keys [load_resources] stores in [IMAGES]. *)
Definition loaded_images : list String.string :=
  ["wP"; "wR"; "wN"; "wB"; "wQ"; "wK"; "bP"; "bR"; "bN"; "bB"; "bQ"; "bK"]%string.

(** Line 82. *)
Definition wood_colors : list (Z * Z * Z) :=
  [(181, 136, 99); (240, 217, 181)].

(** Truth value of [None] or an integer. *)
Definition truthy_int (o : option Z) : bool :=
  match o with
  | Some n => negb (n =? 0)
  | None => false
  end.

(** Truth value of [None] or a pair. *)
Definition truthy_pos (o : option (Z * Z)) : bool :=
  match o with
  | Some _ => true
  | None => false
  end.

Section Game.

Context {orc : Oracle}.

(** What the game uses of the chess library besides [Oracle]:
    [chess.Board()], [chess.square(file, rank)], [board.piece_at(square)]
    and [board.color_at(square)], [piece.symbol()],
    [chess.Move(from, to, promotion)], [move in board.legal_moves], the
    truth value and the text of a move, [board.is_capture(move)],
    [board.is_castling(move)], [board.is_check()] and
    [board.is_checkmate()]. *)
Class Rules : Type := {
  initial_board : Board;
  square : Z -> Z -> Z;
  piece_at : Board -> Z -> option Piece;
  color_at : Board -> Z -> option bool;
  symbol : Piece -> String.string;
  make_move : Z -> Z -> option Z -> Move;
  is_legal : Board -> Move -> bool;
  move_bool : Move -> bool;
  move_str : Move -> String.string;
  is_capture : Board -> Move -> bool;
  is_castling : Board -> Move -> bool;
  is_check : Board -> bool;
  is_checkmate : Board -> bool
}.

Context {rules : Rules}.

(** *** Laws of the library, assumed only where a theorem names them *)

(** The symbol of a piece on the board is one of the six letters, in
    either case. *)
Definition symbols_are_letters : Prop :=
  forall b sq p,
    piece_at b sq = Some p ->
    In (symbol p)
       ["p"; "n"; "b"; "r"; "q"; "k"; "P"; "N"; "B"; "R"; "Q"; "K"]%string.

(** ** [draw_board] (lines 81-95) *)

(** Drawing either raises or yields the effects in order. *)
Definition drawing : Type := (ui_exn + list effect)%type.

Definition then_draw (d1 d2 : drawing) : drawing :=
  match d1 with
  | inl e => inl e
  | inr l1 => match d2 with
              | inl e => inl e
              | inr l2 => inr (l1 ++ l2)
              end
  end.

(** Lines 89 and 94: the key of the image of a piece. *)
Definition piece_image (p : Piece) : String.string :=
  String.append (if Bool.eqb (color p) WHITE then "w" else "b")%string
                (str_upper (symbol p)).

(** [screen.blit(IMAGES[key], ...)]. *)
Definition blit (images : list String.string) (key : String.string)
    (x y : Z) : drawing :=
  if in_dec String.string_dec key images then inr [Blit key x y]
  else inl KeyError.

(** Lines 85-90: the square of row [r] and column [c]. *)
Definition draw_cell (images : list String.string) (b : Board)
    (dragging_piece : option Z) (r c : Z) : drawing :=
  let rgb := nth (Z.to_nat ((r + c) mod 2)) wood_colors (0, 0, 0) in
  then_draw
    (inr [FillRect rgb (c * SQ_SIZE) (r * SQ_SIZE) SQ_SIZE SQ_SIZE])
    (match piece_at b (square c (DIMENSION - 1 - r)) with
     | Some piece =>
         if match dragging_piece with
            | None => true
            | Some d => negb (square c (DIMENSION - 1 - r) =? d)
            end
         then blit images (piece_image piece) (c * SQ_SIZE) (r * SQ_SIZE)
         else inr []
     | None => inr []
     end).

(** Lines 92-95: the piece under the cursor. *)
Definition draw_dragged (images : list String.string) (b : Board)
    (dragging_piece : option Z) (dragging_pos : option (Z * Z)) : drawing :=
  if truthy_int dragging_piece && truthy_pos dragging_pos then
    match dragging_piece, dragging_pos with
    | Some d, Some (x, y) =>
        match piece_at b d with
        | Some piece =>
            blit images (piece_image piece)
              (x - SQ_SIZE / 2) (y - SQ_SIZE / 2)
        | None => inl AttributeError
        end
    | _, _ => inr []
    end
  else inr [].

Definition draw_board (images : list String.string) (b : Board)
    (dragging_piece : option Z) (dragging_pos : option (Z * Z)) : drawing :=
  then_draw
    (fold_left
       (fun d r =>
          fold_left
            (fun d c => then_draw d (draw_cell images b dragging_piece r c))
            (range 0 DIMENSION) d)
       (range 0 DIMENSION) (inr []))
    (draw_dragged images b dragging_piece dragging_pos).

(** ** [display_message], [display_winner] (lines 98-104, 125-131) *)

Definition display_message (message : String.string) : list effect :=
  [TextCentered 32 message (WIDTH / 2) (HEIGHT / 2); Flip; Delay 2000].

Definition display_winner (winner : String.string) : list effect :=
  [TextCentered 40
     (String.append "Game Over! " (String.append winner " Wins!"))%string
     (WIDTH / 2) (HEIGHT / 2);
   Flip; Delay 2000].

(** ** [play_move_sound] (lines 107-113) *)

Definition play_move_sound (move : Move) (b : Board) : list effect :=
  if is_capture b move then [Play capture_sound]
  else if is_castling b move then [Play castle_sound]
  else [Play move_sound].

(** ** [display_move_summary] (lines 116-122); [y_offset] is the variable
    the loop advances. *)

Fixpoint summary_loop (move_list : list Move) (y_offset : Z) : list effect :=
  match move_list with
  | [] => []
  | move :: rest =>
      TextAt 20 (move_str move) 10 y_offset :: summary_loop rest (y_offset + 30)
  end.

Definition display_move_summary (move_list : list Move) : list effect :=
  summary_loop move_list (HEIGHT - 100).

(** ** [play_game] (lines 134-209) *)

(** The variables of the loop, [IMAGES], and the effects so far. *)
Record game : Type := mkGame {
  running : bool;
  dragging_piece : option Z;
  dragging_pos : option (Z * Z);
  move_list : list Move;
  images : list String.string;
  shown : list effect
}.

(** The events the loop tells apart; a mouse event comes with what
    [pygame.mouse.get_pos()] returns while it is handled. *)
Inductive ui_event : Type :=
| QUIT
| MOUSEBUTTONDOWN (location : Z * Z)
| MOUSEBUTTONUP (location : Z * Z)
| MOUSEMOTION (location : Z * Z)
| OtherEvent.

(** Lines 149-152 and 158-161: the square under the mouse. *)
Definition square_at (location : Z * Z) : Z :=
  let col := fst location / SQ_SIZE in
  let row := snd location / SQ_SIZE in
  square col (DIMENSION - 1 - row).

Definition show (g : game) (l : list effect) : game :=
  mkGame (running g) (dragging_piece g) (dragging_pos g) (move_list g)
         (images g) (shown g ++ l).

(** Lines 171-180 and 189-198, after a move was pushed on [b]. *)
Definition announce (b : Board) (g : game) : game :=
  let g := if is_check b
           then show g (Play check_sound :: display_message "Check!"%string)
           else g in
  if is_checkmate b then
    let winner := (if Bool.eqb (turn b) BLACK then "White" else "Black")%string in
    let g := show g (Play checkmate_sound :: display_message "Checkmate!"%string
                       ++ display_winner winner) in
    mkGame false (dragging_piece g) (dragging_pos g) (move_list g)
           (images g) (shown g)
  else g.

(** Lines 167-169 and 185-187: sound, push, record. *)
Definition make (move : Move) (g : game) : M game :=
  fun s =>
    let g := show g (play_move_sound move (board s)) in
    match do_push move s with
    | Ok _ s' =>
        Ok (mkGame (running g) (dragging_piece g) (dragging_pos g)
                   (move_list g ++ [move]) (images g) (shown g)) s'
    | Raised e s' => Raised e s'
    | OutOfFuel => OutOfFuel
    end.

(** Lines 182-198: the reply of the engine. *)
Definition reply (fuel : nat) (g : game) : M game :=
  fun s =>
    if negb (is_game_over (board s)) then
      match get_best_move fuel 3 s with
      | Ok (Some ai_move) s1 =>
          if move_bool ai_move then
            match make ai_move g s1 with
            | Ok g' s2 => Ok (announce (board s2) g') s2
            | Raised e s' => Raised e s'
            | OutOfFuel => OutOfFuel
            end
          else Ok g s1
      | Ok None s1 => Ok g s1
      | Raised e s' => Raised e s'
      | OutOfFuel => OutOfFuel
      end
    else Ok g s.

Definition clear_drag (g : game) : game :=
  mkGame (running g) None None (move_list g) (images g) (shown g).

(** Lines 156-200. *)
Definition on_mouse_up (fuel : nat) (location : Z * Z) (g : game)
    : M (ui_exn + game) :=
  fun s =>
    match dragging_piece g with
    | None => Ok (inr g) s
    | Some from =>
        let to := square_at location in
        let move := make_move from to None in
        if is_legal (board s) move then
          match piece_at (board s) from with
          | None => Ok (inl AttributeError) s
          | Some piece =>
              let move :=
                if (kind piece =? PAWN) && ((to / 8 =? 0) || (to / 8 =? 7))
                then make_move from to (Some QUEEN)
                else move in
              match make move g s with
              | Ok g1 s1 =>
                  match reply fuel (announce (board s1) g1) s1 with
                  | Ok g2 s2 => Ok (inr (clear_drag g2)) s2
                  | Raised e s' => Raised e s'
                  | OutOfFuel => OutOfFuel
                  end
              | Raised e s' => Raised e s'
              | OutOfFuel => OutOfFuel
              end
          end
        else Ok (inr (clear_drag g)) s
    end.

(** Lines 147-155. *)
Definition on_mouse_down (location : Z * Z) (g : game) (b : Board) : game :=
  let sq := square_at location in
  if match piece_at b sq with Some _ => true | None => false end
     && match color_at b sq with
        | Some c => Bool.eqb c (turn b)
        | None => false
        end
  then mkGame (running g) (Some sq) (Some location) (move_list g)
              (images g) (shown g)
  else g.

(** Lines 201-203. *)
Definition on_mouse_motion (location : Z * Z) (g : game) : game :=
  match dragging_piece g with
  | Some _ => mkGame (running g) (dragging_piece g) (Some location)
                     (move_list g) (images g) (shown g)
  | None => g
  end.

(** Lines 144-203: one event. *)
Definition handle_event (fuel : nat) (event : ui_event) (g : game)
    : M (ui_exn + game) :=
  match event with
  | QUIT =>
      ret (inr (mkGame false (dragging_piece g) (dragging_pos g)
                       (move_list g) (images g) (shown g)))
  | MOUSEBUTTONDOWN location =>
      fun s => Ok (inr (on_mouse_down location g (board s))) s
  | MOUSEBUTTONUP location => on_mouse_up fuel location g
  | MOUSEMOTION location => ret (inr (on_mouse_motion location g))
  | OtherEvent => ret (inr g)
  end.

(** Lines 143-203: the events of one pass of the loop, in order; an
    exception ends the game. *)
Fixpoint handle_events (fuel : nat) (events : list ui_event) (g : game)
    : M (ui_exn + game) :=
  match events with
  | [] => ret (inr g)
  | event :: rest =>
      fun s =>
        match handle_event fuel event g s with
        | Ok (inr g') s' => handle_events fuel rest g' s'
        | Ok (inl e) s' => Ok (inl e) s'
        | Raised e s' => Raised e s'
        | OutOfFuel => OutOfFuel
        end
  end.

(** Lines 205-207: what one pass draws. *)
Definition draw_frame (g : game) (b : Board) : ui_exn + game :=
  match draw_board (images g) b (dragging_piece g) (dragging_pos g) with
  | inl e => inl e
  | inr board_effects =>
      inr (show g (board_effects ++ display_move_summary (move_list g) ++ [Flip]))
  end.

(** Lines 143-207: one pass of [while running]. *)
Definition frame (fuel : nat) (events : list ui_event) (g : game)
    : M (ui_exn + game) :=
  fun s =>
    match handle_events fuel events g s with
    | Ok (inr g') s' => Ok (draw_frame g' (board s')) s'
    | other => other
    end.

(** Lines 134-209: the passes of the loop over the batches of events
    [pygame.event.get()] returns, as long as [running] holds. *)
Fixpoint frames (fuel : nat) (batches : list (list ui_event)) (g : game)
    : M (ui_exn + game) :=
  match batches with
  | [] => ret (inr g)
  | events :: rest =>
      if running g then
        fun s =>
          match frame fuel events g s with
          | Ok (inr g') s' => frames fuel rest g' s'
          | other => other
          end
      else ret (inr g)
  end.

(** Lines 135-141: the game [play_game] starts with, after
    [load_resources]. *)
Definition new_game : game :=
  mkGame true None None [] loaded_images [].

(** The drag state the loop keeps: a drag position exactly while a square
    is dragged, and the dragged square holds a piece. *)
Definition drag_consistent (b : Board) (g : game) : Prop :=
  (dragging_piece g = None <-> dragging_pos g = None) /\
  (forall sq, dragging_piece g = Some sq -> piece_at b sq <> None).

(** What one event or one pass of the loop does to the record of the
    game: moves are appended to [move_list], and the board is the old one
    with exactly these moves pushed. *)
Definition recorded (s : state) (g : game) (s' : state) (g' : game) : Prop :=
  exists ms,
    move_list g' = move_list g ++ ms /\
    board s' = fold_left push ms (board s).

End Game.


(** ** The library of a small concrete game: pawns on game trees

    The White pawns of a position stand on the squares 8, 9, ... and the
    Black ones on 48, 49, ..., as [Toy.toy_pieces] has them; the move made
    by dropping a piece on a square is the successor with the number of
    that square. *)

Module ToyGame.

Import Toy.

Definition toy_piece_at (b : toy_board) (sq : Z) : option Piece :=
  match pos b with
  | Node w k _ _ =>
      if (8 <=? sq) && (sq <? 8 + Z.of_nat w) then Some (mkPiece PAWN WHITE)
      else if (48 <=? sq) && (sq <? 48 + Z.of_nat k)
           then Some (mkPiece PAWN BLACK)
           else None
  end.

#[export] Instance toy_rules : Rules (orc := toy) := {
  initial_board := mkBoard hanging true [];
  square := fun file rank => rank * 8 + file;
  piece_at := toy_piece_at;
  color_at := fun b sq => option_map color (toy_piece_at b sq);
  symbol := fun p => (if color p then "P" else "p")%string;
  make_move := fun _ to _ => Z.to_nat to;
  is_legal := fun b m => (m <? length (kids_of (pos b)))%nat;
  move_bool := fun _ => true;
  move_str := fun m => String.String (Ascii.ascii_of_nat (48 + m)) String.EmptyString;
  is_capture := fun _ _ => false;
  is_castling := fun _ _ => false;
  is_check := fun _ => false;
  is_checkmate := toy_over
}.

(** The game [play_game] starts with, on the board of [toy_rules]. *)
Definition opening : state := mkState (initial_board (Rules := toy_rules)) [].

(** Picking up the pawn on square 8 and dropping it on square 1. *)
Definition one_drag : list ui_event :=
  [MOUSEBUTTONDOWN (10, 400); MOUSEMOTION (40, 430); MOUSEBUTTONUP (70, 460)].

End ToyGame.


(** * Properties *)

(** ** Arithmetic of the scores *)

(** Decides a goal about comparisons, maxima and minima of a few scores by
    cases on the scores and on the comparisons of their integers. *)
Ltac score_cases :=
  unfold py_max, py_min in *;
  repeat match goal with x : Score |- _ => destruct x end;
  cbn [slt sle] in *; try discriminate; try reflexivity;
  repeat (match goal with
          | H : context [Z.ltb ?x ?y] |- _ => destruct (Z.ltb_spec x y)
          | |- context [Z.ltb ?x ?y] => destruct (Z.ltb_spec x y)
          | H : context [Z.leb ?x ?y] |- _ => destruct (Z.leb_spec x y)
          | |- context [Z.leb ?x ?y] => destruct (Z.leb_spec x y)
          end; cbn [slt sle] in *);
  try discriminate; try reflexivity;
  repeat match goal with
  | H : Fin _ = Fin _ |- _ => injection H as H
  end;
  try lia; try (f_equal; lia).

Lemma sle_refl a : sle a a = true.
Proof. score_cases. Qed.

Lemma sle_trans a b c : sle a b = true -> sle b c = true -> sle a c = true.
Proof. intros; score_cases. Qed.

Lemma sle_false_slt a b : sle a b = false -> slt b a = true.
Proof. intros; score_cases. Qed.

Lemma slt_false_sle a b : slt a b = false -> sle b a = true.
Proof. intros; score_cases. Qed.

Lemma sle_antisym a b : sle a b = true -> sle b a = true -> a = b.
Proof. intros; score_cases. Qed.

Lemma sle_neg_inf a : sle a NegInf = true -> a = NegInf.
Proof. intros; score_cases. Qed.

Lemma sle_pos_inf a : sle PosInf a = true -> a = PosInf.
Proof. intros; score_cases. Qed.

(** *** Maxima: what the maximizing branch needs *)

Lemma max_cut_child a e be :
  slt a be = true -> sle be (py_max a e) = true -> sle be e = true.
Proof. intros; score_cases. Qed.

Lemma max_cut_best al best be e :
  slt (py_max al best) be = true -> sle be e = true -> py_max best e = e.
Proof. intros; score_cases. Qed.

Lemma max_ge_chain e vm tv v :
  sle e vm = true -> sle (py_max tv vm) v = true -> sle e v = true.
Proof. intros; score_cases. Qed.

Lemma max_window_lt al best be :
  slt (py_max al best) be = true -> slt al be = true.
Proof. intros; score_cases. Qed.

Lemma max_no_high al best be :
  slt (py_max al best) be = true -> sle be best = true -> False.
Proof. intros; score_cases. Qed.

Lemma py_max_assoc al best e :
  py_max (py_max al best) e = py_max al (py_max best e).
Proof. score_cases. Qed.

Lemma max_lt_r a e be : slt (py_max a e) be = true -> slt e be = true.
Proof. intros; score_cases. Qed.

Lemma max_mono tv vm best e :
  sle tv best = true -> sle vm e = true ->
  sle (py_max tv vm) (py_max best e) = true.
Proof. intros; score_cases. Qed.

Lemma max_keep best e vm :
  sle vm e = true -> slt best e = false -> py_max best vm = py_max best e.
Proof. intros; score_cases. Qed.

Lemma max_keep_lt al best e :
  slt best e = false -> slt al (py_max best e) = true -> slt al best = true.
Proof. intros; score_cases. Qed.

Lemma max_new al best e tv :
  sle tv best = true -> slt best e = true ->
  slt al (py_max best e) = true ->
  slt (py_max al best) e = true /\ py_max tv e = py_max best e.
Proof. intros; split; score_cases. Qed.

(** *** Minima: what the minimizing branch needs *)

Lemma min_cut_child b e al :
  slt al b = true -> sle (py_min b e) al = true -> sle e al = true.
Proof. intros; score_cases. Qed.

Lemma min_cut_best al best be e :
  slt al (py_min be best) = true -> sle e al = true -> py_min best e = e.
Proof. intros; score_cases. Qed.

Lemma min_le_chain e vm tv v :
  sle vm e = true -> sle v (py_min tv vm) = true -> sle v e = true.
Proof. intros; score_cases. Qed.

Lemma min_window_lt al best be :
  slt al (py_min be best) = true -> slt al be = true.
Proof. intros; score_cases. Qed.

Lemma min_no_low al best be :
  slt al (py_min be best) = true -> sle best al = true -> False.
Proof. intros; score_cases. Qed.

Lemma py_min_assoc be best e :
  py_min (py_min be best) e = py_min be (py_min best e).
Proof. score_cases. Qed.

Lemma min_lt_r al b e : slt al (py_min b e) = true -> slt al e = true.
Proof. intros; score_cases. Qed.

Lemma min_mono tv vm best e :
  sle best tv = true -> sle e vm = true ->
  sle (py_min best e) (py_min tv vm) = true.
Proof. intros; score_cases. Qed.

Lemma min_keep best e vm :
  sle e vm = true -> slt e best = false -> py_min best vm = py_min best e.
Proof. intros; score_cases. Qed.

Lemma min_keep_lt be best e :
  slt e best = false -> slt (py_min best e) be = true -> slt best be = true.
Proof. intros; score_cases. Qed.

Lemma min_new be best e tv :
  sle best tv = true -> slt e best = true ->
  slt (py_min best e) be = true ->
  slt e (py_min be best) = true /\ py_min tv e = py_min best e.
Proof. intros; split; score_cases. Qed.

(** *** Brackets *)

Lemma bracket_fail_high e v al be :
  slt al be = true -> sle be e = true -> sle e v = true -> bracket e v al be.
Proof. unfold bracket; intros; repeat split; intros; score_cases. Qed.

Lemma bracket_fail_low e v al be :
  slt al be = true -> sle e al = true -> sle v e = true -> bracket e v al be.
Proof. unfold bracket; intros; repeat split; intros; score_cases. Qed.

Lemma bracket_exact v al be : bracket v v al be.
Proof. unfold bracket; repeat split; intros; apply sle_refl. Qed.

Lemma bracket_upper e vm a be :
  bracket e vm a be -> slt e be = true -> sle vm e = true.
Proof.
  intros (H1 & H2 & _) He. destruct (sle e a) eqn:E.
  - now apply H1.
  - rewrite (H2 (sle_false_slt _ _ E) He). apply sle_refl.
Qed.

Lemma bracket_lower e vm a be :
  bracket e vm a be -> slt a e = true -> sle e vm = true.
Proof.
  intros (_ & H2 & H3) He. destruct (sle be e) eqn:E.
  - now apply H3.
  - rewrite (H2 He (sle_false_slt _ _ E)). apply sle_refl.
Qed.

Lemma bracket_full r v : bracket r v NegInf PosInf -> r = v.
Proof.
  intros (H1 & H2 & H3). destruct r.
  - symmetry. apply sle_neg_inf, H1. reflexivity.
  - symmetry. now apply H2.
  - symmetry. apply sle_pos_inf, H3. reflexivity.
Qed.

Lemma fold_max_ge {X} (V : X -> Score) (ms : list X) (tv : Score) :
  sle tv (fold_left (fun best m => py_max best (V m)) ms tv) = true.
Proof.
  revert tv; induction ms as [|m ms IH]; intros tv; simpl.
  - apply sle_refl.
  - eapply sle_trans; [|apply IH].
    generalize (V m); intros; score_cases.
Qed.

Lemma fold_min_le {X} (V : X -> Score) (ms : list X) (tv : Score) :
  sle (fold_left (fun best m => py_min best (V m)) ms tv) tv = true.
Proof.
  revert tv; induction ms as [|m ms IH]; intros tv; simpl.
  - apply sle_refl.
  - eapply sle_trans; [apply IH|].
    generalize (V m); intros; score_cases.
Qed.

Section SearchProperties.

Context {orc : Oracle}.

(** ** The pruned loop against the exhaustive fold *)

Section Loop.

Variable child : Move -> Score -> Score -> Score.
Variable V : Move -> Score.
Variables al be : Score.

Hypothesis child_bracket :
  forall m a b, slt a b = true -> bracket (child m a b) (V m) a b.

(** Maximizing node.  [best] and [a] are the running best and alpha of
    the code, [tv] the exact maximum over the moves already seen: [best]
    bounds it from above and is exact once it exceeds the alpha the node
    was entered with. *)
Lemma ab_loop_max_bracket (ms : list Move) :
  forall best a tv,
    a = py_max al best ->
    slt a be = true ->
    sle tv best = true ->
    (slt al best = true -> tv = best) ->
    bracket (fst (fst (ab_loop child true ms (best, a, be))))
            (fold_left (fun acc m => py_max acc (V m)) ms tv) al be.
Proof.
  induction ms as [|m ms IH]; intros best a tv Ha Hw Htv Hex.
  - simpl. subst a. repeat split; intros; auto.
    exfalso; eauto using max_no_high.
  - simpl. pose proof (child_bracket m a be Hw) as Hc.
    set (e := child m a be) in *; clearbody e.
    set (vm := V m) in *; clearbody vm.
    destruct (sle be (py_max a e)) eqn:Hcut.
    + simpl. pose proof (max_cut_child _ _ _ Hw Hcut) as Hbe.
      subst a. rewrite (max_cut_best _ _ _ _ Hw Hbe).
      apply bracket_fail_high; eauto using max_window_lt.
      eapply max_ge_chain; [|apply fold_max_ge].
      destruct Hc as (_ & _ & H3); auto.
    + apply sle_false_slt in Hcut.
      pose proof (bracket_upper _ _ _ _ Hc (max_lt_r _ _ _ Hcut)) as Hvm.
      apply IH; auto.
      * subst a. apply py_max_assoc.
      * now apply max_mono.
      * intros Hal. destruct (slt best e) eqn:E.
        -- destruct (max_new al best e tv Htv E Hal) as [Hae Hmax].
           destruct Hc as (_ & H2 & _). subst a.
           rewrite (H2 Hae (max_lt_r _ _ _ Hcut)). exact Hmax.
        -- rewrite (Hex (max_keep_lt _ _ _ E Hal)). now apply max_keep.
Qed.

(** Minimizing node, symmetrically. *)
Lemma ab_loop_min_bracket (ms : list Move) :
  forall best b tv,
    b = py_min be best ->
    slt al b = true ->
    sle best tv = true ->
    (slt best be = true -> tv = best) ->
    bracket (fst (fst (ab_loop child false ms (best, al, b))))
            (fold_left (fun acc m => py_min acc (V m)) ms tv) al be.
Proof.
  induction ms as [|m ms IH]; intros best b tv Hb Hw Htv Hex.
  - simpl. subst b. repeat split; intros; auto.
    exfalso; eauto using min_no_low.
  - simpl. pose proof (child_bracket m al b Hw) as Hc.
    set (e := child m al b) in *; clearbody e.
    set (vm := V m) in *; clearbody vm.
    destruct (sle (py_min b e) al) eqn:Hcut.
    + simpl. pose proof (min_cut_child _ _ _ Hw Hcut) as Hal.
      subst b. rewrite (min_cut_best _ _ _ _ Hw Hal).
      apply bracket_fail_low; eauto using min_window_lt.
      eapply min_le_chain; [|apply fold_min_le].
      destruct Hc as (H1 & _ & _); auto.
    + apply sle_false_slt in Hcut.
      pose proof (bracket_lower _ _ _ _ Hc (min_lt_r _ _ _ Hcut)) as Hvm.
      apply IH; auto.
      * subst b. apply py_min_assoc.
      * now apply min_mono.
      * intros Hbe. destruct (slt e best) eqn:E.
        -- destruct (min_new be best e tv Htv E Hbe) as [Heb Hmin].
           destruct Hc as (_ & H2 & _). subst b.
           rewrite (H2 (min_lt_r _ _ _ Hcut) Heb). exact Hmin.
        -- rewrite (Hex (min_keep_lt _ _ _ E Hbe)). now apply min_keep.
Qed.

End Loop.

(** ** The evaluation *)

Lemma eval_loop_material (b : Board) : eval_loop b = material b.
Proof.
  unfold eval_loop, material, count, range,
    PAWN, KNIGHT, BISHOP, ROOK, QUEEN, KING. simpl. lia.
Qed.

(** ** Pruning does not change the value *)

Lemma ab_bracket (n : nat) :
  forall b al be mx,
    slt al be = true ->
    bracket (ab n b al be mx) (exhaustive_minimax n b mx) al be.
Proof.
  induction n as [|n IH]; intros b al be mx Hw.
  - simpl. rewrite eval_loop_material. apply bracket_exact.
  - simpl. destruct (is_game_over b).
    + rewrite eval_loop_material. apply bracket_exact.
    + destruct mx.
      * apply (ab_loop_max_bracket _
                 (fun m => exhaustive_minimax n (push b m) (negb true)));
          [ intros; now apply IH | destruct al; reflexivity | exact Hw
          | reflexivity | intros H; destruct al; discriminate H ].
      * apply (ab_loop_min_bracket _
                 (fun m => exhaustive_minimax n (push b m) (negb false)));
          [ intros; now apply IH | destruct be; reflexivity | exact Hw
          | reflexivity | intros H; destruct be; discriminate H ].
Qed.

Lemma ab_full_window (n : nat) (b : Board) (mx : bool) :
  ab n b NegInf PosInf mx = exhaustive_minimax n b mx.
Proof. apply bracket_full, ab_bracket; reflexivity. Qed.

(** ** Unfolding the monadic definitions on a state *)

Lemma for_each_cons {X S} (x : X) (xs : list X)
    (body : X -> S -> M (loop_ctl S)) (st : S) (s : state) :
  for_each (x :: xs) body st s =
  match body x st s with
  | Ok (Continue st') s' => for_each xs body st' s'
  | Ok (Break st') s' => Ok st' s'
  | Raised e s' => Raised e s'
  | OutOfFuel => OutOfFuel
  end.
Proof.
  simpl. unfold bind. destruct (body x st s) as [[st'|st'] s'| |]; reflexivity.
Qed.

Lemma minimax_body_unfold search depth mx move best alpha beta s :
  minimax_body search depth mx move (best, alpha, beta) s =
  match search (depth - 1) alpha beta (negb mx)
          (mkState (push (board s) move) (trace s ++ [EvPush move])) with
  | Ok eval s2 =>
      match pop (board s2) with
      | Some b =>
          let w' := update mx eval (best, alpha, beta) in
          Ok (if cutoff w' then Break w' else Continue w')
             (mkState b (trace s2 ++ [EvPop]))
      | None => Raised IndexError s2
      end
  | Raised e s' => Raised e s'
  | OutOfFuel => OutOfFuel
  end.
Proof.
  unfold minimax_body, bind, do_push, do_pop, ret.
  destruct (search _ _ _ _ _) as [eval s2| |]; try reflexivity.
  destruct (pop (board s2)); try reflexivity.
  destruct (cutoff _); reflexivity.
Qed.

Lemma minimax_unfold fuel depth alpha beta mx s :
  minimax (S fuel) depth alpha beta mx s =
  let s1 := mkState (board s) (trace s ++ [EvSearch depth alpha beta mx]) in
  if (depth =? 0) || is_game_over (board s)
  then Ok (Fin (eval_loop (board s))) s1
  else
    match for_each (legal_moves (board s))
            (minimax_body (minimax fuel) depth mx)
            (if mx then NegInf else PosInf, alpha, beta)
            (mkState (board s) (trace s1 ++ [EvLegalMoves])) with
    | Ok w s' => Ok (fst (fst w)) s'
    | Raised e s' => Raised e s'
    | OutOfFuel => OutOfFuel
    end.
Proof.
  cbn [minimax]. unfold bind, log, gets, list_legal_moves, evaluate_board, ret.
  cbn [board trace]. unfold bind, log, gets. cbn [board trace].
  destruct ((depth =? 0) || is_game_over (board s)); reflexivity.
Qed.

Lemma get_best_move_body_unfold fuel depth move best_move best_value s :
  get_best_move_body fuel depth move (best_move, best_value) s =
  let s1 := mkState (push (board s) move) (trace s ++ [EvPush move]) in
  match minimax fuel (depth - 1) NegInf PosInf (negb (turn (board s1))) s1 with
  | Ok board_value s2 =>
      match pop (board s2) with
      | Some b =>
          Ok (Continue
                (if (turn b && slt best_value board_value)
                    || (negb (turn b) && slt board_value best_value)
                 then (Some move, board_value)
                 else (best_move, best_value)))
             (mkState b (trace s2 ++ [EvPop]))
      | None => Raised IndexError s2
      end
  | Raised e s' => Raised e s'
  | OutOfFuel => OutOfFuel
  end.
Proof.
  unfold get_best_move_body, bind, do_push, do_pop, gets, ret. cbn [board trace].
  destruct (minimax _ _ _ _ _ _) as [v s2| |]; try reflexivity.
  destruct (pop (board s2)); try reflexivity. cbn [board].
  destruct (_ || _); reflexivity.
Qed.

Lemma get_best_move_unfold fuel depth s :
  get_best_move fuel depth s =
  match for_each (legal_moves (board s)) (get_best_move_body fuel depth)
          (None, if turn (board s) then NegInf else PosInf)
          (mkState (board s) (trace s ++ [EvLegalMoves])) with
  | Ok st s' => Ok (fst st) s'
  | Raised e s' => Raised e s'
  | OutOfFuel => OutOfFuel
  end.
Proof.
  unfold get_best_move, bind, gets, list_legal_moves, log, ret, bind.
  cbn [board trace]. reflexivity.
Qed.

(** ** Traces: pushes and pops *)

Lemma net_app (tr1 tr2 : list event) :
  forall k,
    net (tr1 ++ tr2) k =
    match net tr1 k with Some k' => net tr2 k' | None => None end.
Proof.
  induction tr1 as [|e tr1 IH]; intros k; simpl; auto.
  destruct e; auto. destruct k; auto.
Qed.

Lemma net_lift (tr : list event) :
  forall k k' j, net tr k = Some k' -> net tr (k + j) = Some (k' + j)%nat.
Proof.
  induction tr as [|e tr IH]; intros k k' j H; simpl in *.
  - congruence.
  - destruct e; auto.
    + apply (IH (S k)); auto.
    + destruct k; [discriminate|]. simpl. auto.
Qed.

Lemma balanced_nil : balanced [].
Proof. reflexivity. Qed.

Lemma balanced_app tr1 tr2 : balanced tr1 -> balanced tr2 -> balanced (tr1 ++ tr2).
Proof. unfold balanced. intros H1 H2. now rewrite net_app, H1. Qed.

Lemma balanced_neutral (e : event) :
  match e with EvPush _ | EvPop => False | _ => True end -> balanced [e].
Proof. destruct e; simpl; intros []; reflexivity. Qed.

Lemma balanced_push_pop m tr : balanced tr -> balanced (EvPush m :: tr ++ [EvPop]).
Proof.
  unfold balanced. intros H. simpl. rewrite net_app.
  pose proof (net_lift tr 0 0 1 H) as H1. simpl in H1. rewrite H1. reflexivity.
Qed.

Lemma restored_refl s : restored s s.
Proof. split; auto. exists []. now rewrite app_nil_r. Qed.

Lemma restored_trans s1 s2 s3 : restored s1 s2 -> restored s2 s3 -> restored s1 s3.
Proof.
  intros [Hb1 (t1 & Ht1 & B1)] [Hb2 (t2 & Ht2 & B2)]. split; [congruence|].
  exists (t1 ++ t2). split; [|now apply balanced_app].
  now rewrite Ht2, Ht1, app_assoc.
Qed.

Lemma restored_event s e :
  match e with EvPush _ | EvPop => False | _ => True end ->
  restored s (mkState (board s) (trace s ++ [e])).
Proof. intros H. split; auto. exists [e]. split; auto using balanced_neutral. Qed.

(** A loop that returns relates its first and last states by any preorder
    that relates the states around every iteration. *)
Lemma for_each_rel {X S} (R : state -> state -> Prop)
    (body : X -> S -> M (loop_ctl S)) (xs : list X) :
  (forall s, R s s) ->
  (forall s1 s2 s3, R s1 s2 -> R s2 s3 -> R s1 s3) ->
  (forall x st s c s', body x st s = Ok c s' -> R s s') ->
  forall st s r s', for_each xs body st s = Ok r s' -> R s s'.
Proof.
  intros Hrefl Htrans Hbody. induction xs as [|x xs IH]; intros st s r s' H.
  - inversion H; subst. apply Hrefl.
  - rewrite for_each_cons in H.
    destruct (body x st s) as [[st1|st1] s1| |] eqn:E; try discriminate.
    + eapply Htrans; eauto.
    + inversion H; subst. eauto.
Qed.

(** A loop restores the state when every iteration does. *)
Lemma for_each_restored {X S} (body : X -> S -> M (loop_ctl S)) (xs : list X) :
  (forall x st s c s', body x st s = Ok c s' -> restored s s') ->
  forall st s r s', for_each xs body st s = Ok r s' -> restored s s'.
Proof. apply for_each_rel; [apply restored_refl|apply restored_trans]. Qed.

(** One push, a call that restores, one pop. *)
Lemma push_call_pop_restored (Hpop : pop_undoes_push) s move s2 b :
  restored (mkState (push (board s) move) (trace s ++ [EvPush move])) s2 ->
  pop (board s2) = Some b ->
  restored s (mkState b (trace s2 ++ [EvPop])) /\ b = board s.
Proof.
  intros [Hb (tr & Ht & Hbal)] Hp. cbn [board trace] in *.
  rewrite Hb, Hpop in Hp. inversion Hp; subst b. split; auto.
  split; auto. exists (EvPush move :: tr ++ [EvPop]).
  split; [|now apply balanced_push_pop].
  cbn [trace]. rewrite Ht, <- !app_assoc. reflexivity.
Qed.

Lemma minimax_restored (Hpop : pop_undoes_push) (fuel : nat) :
  forall depth alpha beta mx s v s',
    minimax fuel depth alpha beta mx s = Ok v s' -> restored s s'.
Proof.
  induction fuel as [|fuel IH]; intros depth alpha beta mx s v s' H.
  - discriminate.
  - rewrite minimax_unfold in H. cbv zeta in H.
    destruct ((depth =? 0) || is_game_over (board s)).
    + inversion H; subst. now apply restored_event.
    + destruct (for_each _ _ _ _) as [w s1| |] eqn:E; try discriminate.
      inversion H; subst.
      eapply restored_trans; [apply (restored_event s (EvSearch depth alpha beta mx)); exact I|].
      eapply restored_trans;
        [apply (restored_event _ EvLegalMoves); exact I|].
      cbn [board trace]. eapply for_each_restored; [|exact E].
      intros move [[best a] b] s0 c s0' Hb.
      rewrite minimax_body_unfold in Hb.
      destruct (minimax fuel _ _ _ _ _) as [ev s2| |] eqn:Em; try discriminate.
      destruct (pop (board s2)) as [b'|] eqn:Ep; try discriminate.
      inversion Hb; subst.
      eapply push_call_pop_restored; eauto.
Qed.

Lemma get_best_move_body_restored (Hpop : pop_undoes_push) fuel depth move st s c s' :
  get_best_move_body fuel depth move st s = Ok c s' -> restored s s'.
Proof.
  destruct st as [bm bv]. rewrite get_best_move_body_unfold. cbv zeta.
  destruct (minimax fuel _ _ _ _ _) as [v s2| |] eqn:Em; try discriminate.
  destruct (pop (board s2)) as [b'|] eqn:Ep; try discriminate.
  intros H; inversion H; subst.
  eapply push_call_pop_restored; eauto using minimax_restored.
Qed.

Lemma get_best_move_restored (Hpop : pop_undoes_push) fuel depth s r s' :
  get_best_move fuel depth s = Ok r s' -> restored s s'.
Proof.
  rewrite get_best_move_unfold.
  destruct (for_each _ _ _ _) as [st s1| |] eqn:E; try discriminate.
  intros H; inversion H; subst.
  eapply restored_trans; [apply (restored_event s EvLegalMoves); exact I|].
  eapply for_each_restored; [|exact E].
  intros; eapply get_best_move_body_restored; eauto.
Qed.


(** ** The value and the final state of [minimax] at a depth [n >= 0] *)

Lemma minimax_run (Hpop : pop_undoes_push) (n : nat) :
  forall fuel, (n < fuel)%nat ->
  forall alpha beta mx b tr,
  exists tr',
    minimax fuel (Z.of_nat n) alpha beta mx (mkState b tr)
    = Ok (ab n b alpha beta mx) (mkState b (tr ++ tr')).
Proof.
  induction n as [|n IH]; intros fuel Hf alpha beta mx b tr;
    (destruct fuel as [|fuel]; [lia|]); rewrite minimax_unfold; cbv zeta;
    cbn [board trace].
  - simpl. eauto.
  - replace (Z.of_nat (S n) =? 0) with false by (symmetry; apply Z.eqb_neq; lia).
    cbn [orb ab]. destruct (is_game_over b); [eauto|].
    set (child := fun move a be => ab n (push b move) a be (negb mx)).
    assert (Hloop : forall ms w tr0, exists tr',
      for_each ms (minimax_body (minimax fuel) (Z.of_nat (S n)) mx) w
        (mkState b tr0)
      = Ok (ab_loop child mx ms w) (mkState b (tr0 ++ tr'))).
    { induction ms as [|m ms IHms]; intros [[best a] be] tr0.
      - exists []. now rewrite app_nil_r.
      - rewrite for_each_cons, minimax_body_unfold. cbn [board trace].
        replace (Z.of_nat (S n) - 1) with (Z.of_nat n) by lia.
        destruct (IH fuel ltac:(lia) a be (negb mx) (push b m)
                    (tr0 ++ [EvPush m])) as [tr1 E1].
        rewrite E1. cbn [board trace]. rewrite Hpop. cbv zeta.
        cbn [ab_loop fst snd]. fold (child m a be).
        destruct (cutoff (update mx (child m a be) (best, a, be))).
        + rewrite <- !app_assoc. eauto.
        + destruct (IHms (update mx (child m a be) (best, a, be))
                      (((tr0 ++ [EvPush m]) ++ tr1) ++ [EvPop])) as [tr2 E2].
          rewrite E2, <- !app_assoc. eauto. }
    destruct (Hloop (legal_moves b) (if mx then NegInf else PosInf, alpha, beta)
                ((tr ++ [EvSearch (Z.of_nat (S n)) alpha beta mx])
                   ++ [EvLegalMoves])) as [tr' E].
    rewrite E, <- !app_assoc. eauto.
Qed.

(** ** Fuel: a depth [n >= 0] needs [n + 1] nested calls *)

Lemma for_each_fuel {X S} (body : X -> S -> M (loop_ctl S)) (xs : list X) :
  (forall x st s, body x st s <> OutOfFuel) ->
  forall st s, for_each xs body st s <> OutOfFuel.
Proof.
  intros Hbody. induction xs as [|x xs IH]; intros st s.
  - discriminate.
  - rewrite for_each_cons. specialize (Hbody x st s).
    destruct (body x st s) as [[st1|st1] s1| |]; auto; discriminate.
Qed.

Lemma minimax_fuel (n : nat) :
  forall fuel, (n < fuel)%nat ->
  forall alpha beta mx s,
    minimax fuel (Z.of_nat n) alpha beta mx s <> OutOfFuel.
Proof.
  induction n as [|n IH]; intros fuel Hf alpha beta mx s;
    (destruct fuel as [|fuel]; [lia|]); rewrite minimax_unfold; cbv zeta.
  - discriminate.
  - destruct (_ || _); [discriminate|].
    match goal with |- context [for_each ?ms ?body ?w ?s0] =>
      pose proof (for_each_fuel body ms) as Hloop; specialize (fun H => Hloop H w s0)
    end.
    destruct (for_each _ _ _ _); try discriminate.
    exfalso. apply Hloop; auto.
    intros move [[best a] be] s0. rewrite minimax_body_unfold.
    replace (Z.of_nat (S n) - 1) with (Z.of_nat n) by lia.
    pose proof (IH fuel ltac:(lia) a be (negb mx)
                  (mkState (push (board s0) move) (trace s0 ++ [EvPush move]))) as Hc.
    destruct (minimax fuel _ _ _ _ _) as [v s2| |]; try discriminate; auto.
    destruct (pop (board s2)); discriminate.
Qed.

(** ** The depths of the nested calls *)

Lemma continues_refl n s : continues_within n s s.
Proof. exists []. split; [now rewrite app_nil_r|constructor]. Qed.

Lemma continues_trans n s1 s2 s3 :
  continues_within n s1 s2 -> continues_within n s2 s3 ->
  continues_within n s1 s3.
Proof.
  intros (t1 & H1 & F1) (t2 & H2 & F2). exists (t1 ++ t2). split.
  - now rewrite H2, H1, app_assoc.
  - apply Forall_app; auto.
Qed.

Lemma continues_event n s b e :
  match e with EvSearch d _ _ _ => 0 <= d <= n | _ => True end ->
  continues_within n s (mkState b (trace s ++ [e])).
Proof. intros H. exists [e]. split; [reflexivity|]. repeat constructor; exact H. Qed.

Lemma continues_weaken n m s s' :
  n <= m -> continues_within n s s' -> continues_within m s s'.
Proof.
  intros Hnm (tr & Ht & F). exists tr. split; auto.
  eapply Forall_impl; [|exact F]. intros [] ?; auto; lia.
Qed.

Lemma minimax_depths (n : nat) :
  forall fuel alpha beta mx s v s',
    minimax fuel (Z.of_nat n) alpha beta mx s = Ok v s' ->
    continues_within (Z.of_nat n) s s'.
Proof.
  induction n as [|n IH]; intros fuel alpha beta mx s v s' H;
    (destruct fuel as [|fuel]; [discriminate|]);
    rewrite minimax_unfold in H; cbv zeta in H.
  - change (Z.of_nat 0 =? 0) with true in H. cbn [orb] in H.
    injection H as _ <-. apply continues_event. cbv beta iota. lia.
  - destruct (_ || _).
    + injection H as _ <-. apply continues_event. cbv beta iota. lia.
    + destruct (for_each _ _ _ _) as [w s1| |] eqn:E; try discriminate.
      inversion H; subst.
      eapply continues_trans;
        [apply (continues_event _ s (board s)
                  (EvSearch (Z.of_nat (S n)) alpha beta mx)); lia|].
      eapply continues_trans;
        [apply (continues_event _ _ (board s) EvLegalMoves); exact I|].
      eapply (for_each_rel (continues_within (Z.of_nat (S n)))); [| | |exact E].
      * apply continues_refl.
      * apply continues_trans.
      * intros move [[best a] b] s0 c s0' Hb.
        rewrite minimax_body_unfold in Hb.
        replace (Z.of_nat (S n) - 1) with (Z.of_nat n) in Hb by lia.
        destruct (minimax fuel _ _ _ _ _) as [ev s2| |] eqn:Em; try discriminate.
        destruct (pop (board s2)) as [b'|] eqn:Ep; try discriminate.
        inversion Hb; subst.
        eapply continues_trans;
          [apply (continues_event _ s0 (push (board s0) move) (EvPush move)); exact I|].
        eapply continues_trans;
          [apply (continues_weaken (Z.of_nat n)); [lia|]; eapply IH; exact Em|].
        apply (continues_event _ _ b' EvPop). exact I.
Qed.

(** ** Finite scores *)

Lemma update_finite (mx : bool) (ev best a b : Score) :
  is_finite ev = true ->
  is_finite best = true \/ best = (if mx then NegInf else PosInf) ->
  is_finite (fst (fst (update mx ev (best, a, b)))) = true.
Proof.
  intros Hev Hb. destruct ev as [|z|]; try discriminate.
  assert (H : exists z', fst (fst (update mx (Fin z) (best, a, b))) = Fin z').
  { destruct Hb as [Hb|Hb]; destruct mx; subst; cbn [update fst];
      unfold py_max, py_min;
      try (destruct best as [|y|]; try discriminate); cbn [slt];
      try destruct (_ <? _); eauto. }
  destruct H as [z' ->]. reflexivity.
Qed.

Lemma minimax_loop_finite (search : Z -> Score -> Score -> bool -> M Score)
    depth mx :
  (forall d a b m s v s', search d a b m s = Ok v s' -> is_finite v = true) ->
  forall ms best a b s r s',
    for_each ms (minimax_body search depth mx) (best, a, b) s = Ok r s' ->
    is_finite best = true
    \/ (best = (if mx then NegInf else PosInf) /\ ms <> []) ->
    is_finite (fst (fst r)) = true.
Proof.
  intros Hs. induction ms as [|m ms IH]; intros best a b s r s' H Hinit.
  - inversion H; subst. destruct Hinit as [?|[_ ?]]; auto; congruence.
  - rewrite for_each_cons, minimax_body_unfold in H.
    destruct (search _ _ _ _ _) as [ev s2| |] eqn:E; try discriminate.
    destruct (pop (board s2)); try discriminate. cbv zeta in H.
    assert (Hfin : is_finite (fst (fst (update mx ev (best, a, b)))) = true).
    { apply update_finite; [eauto|]. destruct Hinit as [?|[? _]]; auto. }
    destruct (cutoff _).
    + inversion H; subst; auto.
    + destruct (update mx ev (best, a, b)) as [[best' a'] b'] eqn:Eu.
      eapply IH; eauto.
Qed.

Lemma minimax_finite (Hmoves : moves_unless_over) (fuel : nat) :
  forall depth alpha beta mx s v s',
    minimax fuel depth alpha beta mx s = Ok v s' -> is_finite v = true.
Proof.
  induction fuel as [|fuel IH]; intros depth alpha beta mx s v s' H.
  - discriminate.
  - rewrite minimax_unfold in H. cbv zeta in H.
    destruct (depth =? 0); cbn [orb] in H.
    + inversion H; reflexivity.
    + destruct (is_game_over (board s)) eqn:Eover.
      * inversion H; reflexivity.
      * destruct (for_each _ _ _ _) as [w s1| |] eqn:E; try discriminate.
        inversion H; subst.
        eapply minimax_loop_finite; [exact IH|exact E|].
        right. split; auto.
Qed.


(** ** The trace of a call starts with its entry *)

Lemma minimax_body_restored (Hpop : pop_undoes_push) fuel depth mx move w s c s' :
  minimax_body (minimax fuel) depth mx move w s = Ok c s' -> restored s s'.
Proof.
  destruct w as [[best a] b]. rewrite minimax_body_unfold.
  destruct (minimax fuel _ _ _ _ _) as [ev s2| |] eqn:Em; try discriminate.
  destruct (pop (board s2)) as [b'|] eqn:Ep; try discriminate.
  intros H; inversion H; subst.
  eapply push_call_pop_restored; eauto using minimax_restored.
Qed.

Lemma minimax_trace_head (Hpop : pop_undoes_push) fuel depth alpha beta mx s v s' :
  minimax fuel depth alpha beta mx s = Ok v s' ->
  exists tr, trace s' = trace s ++ EvSearch depth alpha beta mx :: tr.
Proof.
  destruct fuel as [|fuel]; [discriminate|].
  rewrite minimax_unfold. cbv zeta. destruct (_ || _).
  - intros H; inversion H; subst. exists []. reflexivity.
  - destruct (for_each _ _ _ _) as [w s1| |] eqn:E; try discriminate.
    intros H; inversion H; subst.
    apply for_each_restored in E;
      [|intros; eapply minimax_body_restored; eauto].
    destruct E as [_ (tr & Ht & _)]. cbn [trace] in Ht.
    exists (EvLegalMoves :: tr). rewrite Ht, <- !app_assoc. reflexivity.
Qed.

(** ** The loop of [get_best_move] *)

Lemma get_best_move_body_step (Hpop : pop_undoes_push)
    (Hmoves : moves_unless_over) fuel depth move bm bv s c s' :
  get_best_move_body fuel depth move (bm, bv) s = Ok c s' ->
  carried (turn (board s)) (bm, bv) ->
  exists bm' bv',
    c = Continue (bm', bv') /\ is_finite bv' = true /\
    (bm' = Some move \/ (bm' = bm /\ bm <> None)) /\
    board s' = board s /\
    (bm = None -> bm' = Some move).
Proof.
  rewrite get_best_move_body_unfold. cbv zeta. cbn [board].
  destruct (minimax fuel _ _ _ _ _) as [v s2| |] eqn:Em; try discriminate.
  destruct (pop (board s2)) as [b'|] eqn:Ep; try discriminate.
  intros H Hc; inversion H; subst; clear H.
  pose proof (minimax_finite Hmoves _ _ _ _ _ _ _ _ Em) as Hv.
  pose proof (minimax_restored Hpop _ _ _ _ _ _ _ _ Em) as Hr.
  destruct (push_call_pop_restored Hpop _ _ _ _ Hr Ep) as [_ ->].
  cbn [board].
  destruct v as [|z|]; try discriminate.
  destruct Hc as [[Hbm Hbv]|[Hbm Hbv]]; cbn [fst snd] in *.
  - subst bm bv. destruct (turn (board s)); cbn;
      exists (Some move), (Fin z); repeat split; auto.
  - destruct (_ || _).
    + exists (Some move), (Fin z); repeat split; auto.
    + exists bm, bv; repeat split; auto; intros; congruence.
Qed.

Lemma get_best_move_loop (Hpop : pop_undoes_push)
    (Hmoves : moves_unless_over) fuel depth (ms : list Move) :
  forall bm bv s r s',
    for_each ms (get_best_move_body fuel depth) (bm, bv) s = Ok r s' ->
    carried (turn (board s)) (bm, bv) ->
    (ms = [] /\ r = (bm, bv))
    \/ (ms <> [] /\ is_finite (snd r) = true /\
        exists m, fst r = Some m /\ (In m ms \/ bm = Some m)).
Proof.
  induction ms as [|move ms IH]; intros bm bv s r s' H Hc.
  - inversion H; subst. auto.
  - right. split; [discriminate|].
    rewrite for_each_cons in H.
    destruct (get_best_move_body _ _ _ _ _) as [c s1| |] eqn:Eb; try discriminate.
    destruct (get_best_move_body_step Hpop Hmoves _ _ _ _ _ _ _ _ Eb Hc)
      as (bm1 & bv1 & -> & Hfin & Hbm1 & Hboard & _).
    assert (Hbm1' : bm1 <> None)
      by (destruct Hbm1 as [->|[-> ?]]; auto; discriminate).
    assert (Hfrom : forall m, bm1 = Some m -> In m (move :: ms) \/ bm = Some m).
    { intros m Hm. destruct Hbm1 as [->|[-> ?]]; auto.
      inversion Hm; subst. left; left; reflexivity. }
    assert (Hc1 : carried (turn (board s1)) (bm1, bv1)) by (right; auto).
    destruct (IH bm1 bv1 s1 r s' H Hc1) as [[-> ->]|(_ & Hf & m & Hm & Hin)].
    + cbn [fst snd]. split; auto. destruct bm1 as [m1|]; [|congruence].
      exists m1. auto.
    + split; auto. exists m. split; auto.
      destruct Hin as [Hin|Hin]; auto. left; right; exact Hin.
Qed.

(** With enough fuel and lawful pops the loop of [get_best_move] runs to
    its end. *)
Lemma get_best_move_loop_runs (Hpop : pop_undoes_push) fuel depth :
  1 <= depth -> (Z.to_nat (depth - 1) < fuel)%nat ->
  forall ms st b tr,
  exists r tr',
    for_each ms (get_best_move_body fuel depth) st (mkState b tr)
    = Ok r (mkState b (tr ++ tr')).
Proof.
  intros Hd Hf. induction ms as [|move ms IH]; intros [bm bv] b tr.
  - exists (bm, bv), []. now rewrite app_nil_r.
  - rewrite for_each_cons, get_best_move_body_unfold. cbv zeta. cbn [board trace].
    destruct (minimax_run Hpop (Z.to_nat (depth - 1)) fuel Hf NegInf PosInf
                (negb (turn (push b move))) (push b move) (tr ++ [EvPush move]))
      as [tr1 E1].
    rewrite Z2Nat.id in E1 by lia. rewrite E1. cbn [board trace].
    rewrite Hpop. cbv beta iota.
    match goal with |- context [for_each ms _ ?st1 _] =>
      destruct (IH st1 b (((tr ++ [EvPush move]) ++ tr1) ++ [EvPop]))
        as (r & tr2 & E2)
    end.
    rewrite E2, <- !app_assoc. eauto.
Qed.


(** * The claims *)

(** C1.  At the root, [get_best_move] pushes the move and calls [minimax]
    with [depth - 1] and the full window, but the flag it passes is
    [not board.turn] read after the push: where every move hands the turn
    over, this is the side to move at the root itself ([true] for the
    children when White is to move at the root), not its negation. *)
Theorem get_best_move_child_flag
    (Hpop : pop_undoes_push) (Hflip : push_flips_turn)
    fuel depth move st s c s' :
  get_best_move_body fuel depth move st s = Ok c s' ->
  exists tr,
    trace s' =
    trace s ++ EvPush move
            :: EvSearch (depth - 1) NegInf PosInf (turn (board s)) :: tr.
Proof.
  destruct st as [bm bv]. rewrite get_best_move_body_unfold. cbv zeta.
  cbn [board]. rewrite Hflip, negb_involutive.
  destruct (minimax fuel _ _ _ _ _) as [v s2| |] eqn:Em; try discriminate.
  destruct (pop (board s2)) as [b'|] eqn:Ep; try discriminate.
  intros H; inversion H; subst; clear H.
  destruct (minimax_trace_head Hpop _ _ _ _ _ _ _ _ Em) as [tr Ht].
  cbn [trace] in *. exists (tr ++ [EvPop]).
  rewrite Ht, <- !app_assoc. reflexivity.
Qed.

(** C2.  With the full window, [minimax] at a depth [d >= 0] returns the
    value of the unpruned exhaustive minimax of depth [d], and leaves the
    board as it found it. *)
Theorem minimax_equals_exhaustive
    (Hpop : pop_undoes_push) depth fuel mx b tr :
  0 <= depth -> (Z.to_nat depth < fuel)%nat ->
  exists tr',
    minimax fuel depth NegInf PosInf mx (mkState b tr)
    = Ok (exhaustive_minimax (Z.to_nat depth) b mx) (mkState b (tr ++ tr')).
Proof.
  intros Hd Hf.
  destruct (minimax_run Hpop (Z.to_nat depth) fuel Hf NegInf PosInf mx b tr)
    as [tr' E].
  rewrite Z2Nat.id in E by exact Hd. rewrite ab_full_window in E. eauto.
Qed.

(** C3.  [evaluate_board] returns the sum over the six piece kinds of the
    number of White pieces minus the number of Black pieces, an integer,
    and leaves the state as it is. *)
Theorem evaluate_board_material (s : state) :
  evaluate_board s = Ok (material (board s)) s.
Proof. unfold evaluate_board, gets. now rewrite eval_loop_material. Qed.

(** C4.  At depth 0 [minimax] returns what [evaluate_board] returns on the
    same position, whatever the flag (and whatever the window). *)
Theorem minimax_depth_zero fuel alpha beta mx (s : state) :
  exists e,
    evaluate_board s = Ok e s /\
    minimax (S fuel) 0 alpha beta mx s
    = Ok (Fin e) (mkState (board s) (trace s ++ [EvSearch 0 alpha beta mx])).
Proof.
  exists (eval_loop (board s)). split; [reflexivity|].
  now rewrite minimax_unfold.
Qed.

(** C5.  On a position the oracle reports as game-over, [minimax] returns
    the evaluation of that position at once, whatever the depth, window
    and flag: its trace is the entry alone, no enumeration and no push.
    The value is the material, the same a node at depth 0 with the same
    material gets. *)
Theorem minimax_game_over fuel depth alpha beta mx (s : state) :
  is_game_over (board s) = true ->
  evaluate_board s = Ok (material (board s)) s /\
  minimax (S fuel) depth alpha beta mx s
  = Ok (Fin (material (board s)))
       (mkState (board s) (trace s ++ [EvSearch depth alpha beta mx])) /\
  forall fuel2 alpha2 beta2 mx2 s2,
    material (board s2) = material (board s) ->
    exists s2',
      minimax (S fuel2) 0 alpha2 beta2 mx2 s2 = Ok (Fin (material (board s))) s2'.
Proof.
  intros Hover.
  split; [unfold evaluate_board, gets; now rewrite eval_loop_material|]. split.
  - rewrite minimax_unfold, Hover, orb_true_r, eval_loop_material. reflexivity.
  - intros fuel2 alpha2 beta2 mx2 s2 Hm.
    rewrite minimax_unfold. cbn [Z.eqb orb]. cbv zeta.
    rewrite eval_loop_material, Hm. eauto.
Qed.

(** C6.  When [pop] undoes [push]: whenever [minimax] or [get_best_move]
    returns, the board is the one it was called on and every push of the
    call has been undone by a pop, cutoffs included. *)
Theorem search_restores_board (Hpop : pop_undoes_push) :
  (forall fuel depth alpha beta mx s v s',
      minimax fuel depth alpha beta mx s = Ok v s' -> restored s s') /\
  (forall fuel depth s r s',
      get_best_move fuel depth s = Ok r s' -> restored s s').
Proof.
  split; intros.
  - eapply minimax_restored; eauto.
  - eapply get_best_move_restored; eauto.
Qed.

(** C7.  With a lawful oracle, whenever [get_best_move] returns, it
    returns [None] exactly when the position has no legal move, and
    otherwise one of the legal moves; without legal moves it returns
    [None] normally; and for a depth [>= 1] it returns. *)
Theorem get_best_move_none_iff
    (Hpop : pop_undoes_push) (Hmoves : moves_unless_over) :
  (forall fuel depth s r s',
      get_best_move fuel depth s = Ok r s' ->
      (r = None <-> legal_moves (board s) = []) /\
      (forall m, r = Some m -> In m (legal_moves (board s)))) /\
  (forall fuel depth s,
      legal_moves (board s) = [] ->
      get_best_move fuel depth s
      = Ok None (mkState (board s) (trace s ++ [EvLegalMoves]))) /\
  (forall fuel depth s,
      1 <= depth -> (Z.to_nat (depth - 1) < fuel)%nat ->
      exists r s', get_best_move fuel depth s = Ok r s').
Proof.
  split; [|split].
  - intros fuel depth s r s'. rewrite get_best_move_unfold.
    destruct (for_each _ _ _ _) as [st s1| |] eqn:E; try discriminate.
    intros H; inversion H; subst; clear H.
    apply (get_best_move_loop Hpop Hmoves) in E; [|left; split; reflexivity].
    destruct E as [[Hnil ->]|(Hne & _ & m & Hm & Hin)]; cbn [fst].
    + split; [tauto|]. intros; discriminate.
    + rewrite Hm. split.
      * split; intros; [discriminate|contradiction].
      * intros m' Hm'. inversion Hm'; subst.
        destruct Hin as [Hin|Hin]; [exact Hin|discriminate].
  - intros fuel depth s Hnil. rewrite get_best_move_unfold, Hnil. reflexivity.
  - intros fuel depth [b tr] Hd Hf. rewrite get_best_move_unfold. cbn [board trace].
    destruct (get_best_move_loop_runs Hpop fuel depth Hd Hf (legal_moves b)
                (None, if turn b then NegInf else PosInf) b (tr ++ [EvLegalMoves]))
      as (r & tr' & E).
    rewrite E. eauto.
Qed.

(** C8.  After a child is scored with [eval], the maximizing branch raises
    the running best and alpha to their maxima with [eval], the minimizing
    branch lowers the running best and beta to their minima with it; if
    then [beta <= alpha] the loop ends there, in the state the pop of this
    child left, with the running best, and otherwise goes on with the
    remaining moves.  The node returns the running best its loop ends
    with. *)
Theorem minimax_loop_step fuel depth mx move rest best alpha beta s eval s2 b :
  minimax fuel (depth - 1) alpha beta (negb mx)
    (mkState (push (board s) move) (trace s ++ [EvPush move])) = Ok eval s2 ->
  pop (board s2) = Some b ->
  let best' := if mx then py_max best eval else py_min best eval in
  let alpha' := if mx then py_max alpha eval else alpha in
  let beta' := if mx then beta else py_min beta eval in
  let s3 := mkState b (trace s2 ++ [EvPop]) in
  for_each (move :: rest) (minimax_body (minimax fuel) depth mx)
    (best, alpha, beta) s
  = (if sle beta' alpha'
     then Ok (best', alpha', beta') s3
     else for_each rest (minimax_body (minimax fuel) depth mx)
            (best', alpha', beta') s3)
  /\ forall alpha0 beta0 s0,
      (depth =? 0) || is_game_over (board s0) = false ->
      minimax (S fuel) depth alpha0 beta0 mx s0
      = match for_each (legal_moves (board s0))
                (minimax_body (minimax fuel) depth mx)
                (if mx then NegInf else PosInf, alpha0, beta0)
                (mkState (board s0)
                   ((trace s0 ++ [EvSearch depth alpha0 beta0 mx])
                      ++ [EvLegalMoves])) with
        | Ok w s' => Ok (fst (fst w)) s'
        | Raised e s' => Raised e s'
        | OutOfFuel => OutOfFuel
        end.
Proof.
  intros Hchild Hp. cbv zeta. split.
  - rewrite for_each_cons, minimax_body_unfold, Hchild, Hp. cbv zeta.
    destruct mx; cbn [update cutoff]; destruct (sle _ _); reflexivity.
  - intros alpha0 beta0 s0 Hnode. rewrite minimax_unfold, Hnode. reflexivity.
Qed.

(** C9.  With a lawful oracle that has a legal move wherever the game is
    not over, [minimax] at a depth [d >= 0] returns a finite score; hence
    the first root move that [get_best_move] scores replaces the infinite
    initial best value. *)
Theorem search_scores_finite
    (Hpop : pop_undoes_push) (Hmoves : moves_unless_over) :
  (forall depth fuel alpha beta mx s,
      0 <= depth -> (Z.to_nat depth < fuel)%nat ->
      exists z s', minimax fuel depth alpha beta mx s = Ok (Fin z) s') /\
  (forall depth fuel move s,
      1 <= depth -> (Z.to_nat (depth - 1) < fuel)%nat ->
      exists z s',
        get_best_move_body fuel depth move
          (None, if turn (board s) then NegInf else PosInf) s
        = Ok (Continue (Some move, Fin z)) s').
Proof.
  split.
  - intros depth fuel alpha beta mx [b tr] Hd Hf.
    destruct (minimax_run Hpop (Z.to_nat depth) fuel Hf alpha beta mx b tr)
      as [tr' E].
    rewrite Z2Nat.id in E by exact Hd.
    pose proof (minimax_finite Hmoves _ _ _ _ _ _ _ _ E) as Hfin.
    destruct (ab _ _ _ _ _) as [|z|]; try discriminate. eauto.
  - intros depth fuel move [b tr] Hd Hf.
    destruct (get_best_move_loop_runs Hpop fuel depth Hd Hf [move]
                (None, if turn b then NegInf else PosInf) b tr)
      as (r & tr' & E).
    rewrite for_each_cons in E. cbn [board].
    destruct (get_best_move_body _ _ _ _ _) as [c s1| |] eqn:Eb; try discriminate.
    destruct (get_best_move_body_step Hpop Hmoves _ _ _ _ _ _ _ _ Eb)
      as (bm1 & bv1 & -> & Hfin & _ & _ & Hnew); [left; split; reflexivity|].
    rewrite (Hnew eq_refl). destruct bv1 as [|z|]; try discriminate. eauto.
Qed.

(** C10.  For a depth [d >= 0], [d + 1] nested calls are enough for
    [minimax], whatever the oracle does: the recursion does not run out of
    fuel, and every nested call it makes has a depth between 0 and [d].
    So [get_best_move] does not run out of fuel either for a depth
    [d >= 1]. *)
Theorem search_terminates :
  (forall depth fuel alpha beta mx s,
      0 <= depth -> (Z.to_nat depth < fuel)%nat ->
      minimax fuel depth alpha beta mx s <> OutOfFuel) /\
  (forall depth fuel alpha beta mx s v s',
      0 <= depth ->
      minimax fuel depth alpha beta mx s = Ok v s' ->
      continues_within depth s s') /\
  (forall depth fuel s,
      1 <= depth -> (Z.to_nat (depth - 1) < fuel)%nat ->
      get_best_move fuel depth s <> OutOfFuel).
Proof.
  split; [|split].
  - intros depth fuel alpha beta mx s Hd Hf.
    rewrite <- (Z2Nat.id depth Hd). now apply minimax_fuel.
  - intros depth fuel alpha beta mx s v s' Hd H.
    rewrite <- (Z2Nat.id depth Hd) in *. eapply minimax_depths; eauto.
  - intros depth fuel s Hd Hf. rewrite get_best_move_unfold.
    match goal with |- context [for_each ?ms ?body ?w ?s0] =>
      pose proof (for_each_fuel body ms) as Hloop;
        specialize (fun H => Hloop H w s0)
    end.
    destruct (for_each _ _ _ _); try discriminate.
    exfalso. apply Hloop; auto.
    intros move [bm bv] s0. rewrite get_best_move_body_unfold. cbv zeta.
    match goal with |- context [minimax fuel ?d ?a ?b ?m ?s1] =>
      pose proof (minimax_fuel (Z.to_nat (depth - 1)) fuel Hf a b m s1) as Hc
    end.
    rewrite Z2Nat.id in Hc by lia.
    destruct (minimax fuel _ _ _ _ _) as [v s2| |]; try discriminate; auto.
    destruct (pop (board s2)); discriminate.
Qed.


End SearchProperties.

(** * The theorems on the concrete oracle *)

Section ToyInstances.

Import Toy.

Lemma toy_pop_undoes_push : pop_undoes_push (orc := toy).
Proof. intros [p t st] m. reflexivity. Qed.

Lemma toy_push_flips_turn : push_flips_turn (orc := toy).
Proof. intros b m. reflexivity. Qed.

Lemma toy_moves_unless_over : moves_unless_over (orc := toy).
Proof.
  intros [[w k over ks] t st]. cbn. destruct ks as [|x ks].
  - rewrite orb_true_r. discriminate.
  - intros _. discriminate.
Qed.

(** On [hanging], at depth 2 and with White to move, the code searches
    both replies of Black as maximizing and returns the first move, which
    loses a pawn; with the children minimizing, as the specification has
    it, the second move is returned. *)
Example hanging_pawn_chosen :
  (exists s', get_best_move 2 2 (start hanging true) = Ok (Some 0%nat) s') /\
  (exists s', select_best_move_spec 2 2 (start hanging true) = Ok (Some 1%nat) s').
Proof. split; eexists; vm_compute; reflexivity. Qed.

Lemma get_best_move_child_flag_witness :
  pop_undoes_push (orc := toy) /\ push_flips_turn (orc := toy) /\
  exists c s',
    get_best_move_body 2 2 0%nat (None, NegInf) (start hanging true) = Ok c s' /\
    exists tr,
      trace s' = [] ++ EvPush 0%nat :: EvSearch (2 - 1) NegInf PosInf true :: tr.
Proof.
  split; [exact toy_pop_undoes_push|]. split; [exact toy_push_flips_turn|].
  do 2 eexists. split; [vm_compute; reflexivity|].
  eapply (get_best_move_child_flag toy_pop_undoes_push toy_push_flips_turn
            2 2 0%nat (None, NegInf) (start hanging true)).
  vm_compute; reflexivity.
Defined.

Lemma minimax_equals_exhaustive_witness :
  pop_undoes_push (orc := toy) /\ 0 <= 2 /\ (Z.to_nat 2 < 3)%nat /\
  exists tr',
    minimax 3 2 NegInf PosInf true (start hanging true)
    = Ok (exhaustive_minimax (Z.to_nat 2) (board (start hanging true)) true)
         (mkState (board (start hanging true)) ([] ++ tr')).
Proof.
  split; [exact toy_pop_undoes_push|]. split; [lia|]. split; [simpl; lia|].
  apply (minimax_equals_exhaustive toy_pop_undoes_push 2 3 true); [lia|simpl; lia].
Defined.

Lemma minimax_game_over_witness :
  is_game_over (board (start (leaf 3 1) false)) = true /\
  minimax 1 5 (Fin 0) (Fin 1) true (start (leaf 3 1) false)
  = Ok (Fin 2) (mkState (board (start (leaf 3 1) false))
                  [EvSearch 5 (Fin 0) (Fin 1) true]).
Proof.
  split; [reflexivity|].
  exact (proj1 (proj2 (minimax_game_over 0 5 (Fin 0) (Fin 1) true
                         (start (leaf 3 1) false) eq_refl))).
Defined.

Lemma search_restores_board_witness :
  pop_undoes_push (orc := toy) /\
  exists r s',
    get_best_move 2 2 (start hanging true) = Ok r s' /\
    restored (start hanging true) s'.
Proof.
  split; [exact toy_pop_undoes_push|].
  do 2 eexists. split; [vm_compute; reflexivity|].
  apply (proj2 (search_restores_board toy_pop_undoes_push)
           2%nat 2 (start hanging true) (Some 0%nat)).
  vm_compute; reflexivity.
Defined.

Lemma get_best_move_none_iff_witness :
  pop_undoes_push (orc := toy) /\ moves_unless_over (orc := toy) /\
  get_best_move 0 7 (start (leaf 1 1) true)
  = Ok None (mkState (board (start (leaf 1 1) true)) [EvLegalMoves]) /\
  exists r s', get_best_move 2 2 (start hanging true) = Ok r s'.
Proof.
  split; [exact toy_pop_undoes_push|]. split; [exact toy_moves_unless_over|].
  destruct (get_best_move_none_iff toy_pop_undoes_push toy_moves_unless_over)
    as (_ & Hnone & Hruns).
  split.
  - apply (Hnone 0%nat 7 (start (leaf 1 1) true)). reflexivity.
  - apply (Hruns 2%nat 2 (start hanging true)); [lia|simpl; lia].
Defined.

(** A cutoff in the maximizing branch with the window (0, 1): the child is
    worth 2, and the loop ends with the running best 2, which is neither
    the alpha nor the beta the node was given. *)
Lemma minimax_loop_step_witness :
  let t := Node 1 1 false [leaf 3 1; leaf 1 1] in
  let s2 := mkState (push (board (start t true)) 0%nat)
              [EvPush 0%nat; EvSearch 0 (Fin 0) (Fin 1) false] in
  minimax 1 (1 - 1) (Fin 0) (Fin 1) (negb true)
    (mkState (push (board (start t true)) 0%nat)
       (trace (start t true) ++ [EvPush 0%nat])) = Ok (Fin 2) s2 /\
  pop (board s2) = Some (board (start t true)) /\
  for_each [0%nat; 1%nat] (minimax_body (minimax 1) 1 true)
    (NegInf, Fin 0, Fin 1) (start t true)
  = Ok (Fin 2, Fin 2, Fin 1)
       (mkState (board (start t true))
          [EvPush 0%nat; EvSearch 0 (Fin 0) (Fin 1) false; EvPop]).
Proof.
  cbv zeta. split; [reflexivity|]. split; [reflexivity|].
  exact (proj1 (minimax_loop_step 1 1 true 0%nat [1%nat] NegInf (Fin 0) (Fin 1)
                  (start (Node 1 1 false [leaf 3 1; leaf 1 1]) true)
                  (Fin 2) _ _ eq_refl eq_refl)).
Defined.

Lemma search_scores_finite_witness :
  pop_undoes_push (orc := toy) /\ moves_unless_over (orc := toy) /\
  0 <= 2 /\ (Z.to_nat 2 < 3)%nat /\
  exists z s',
    minimax 3 2 (Fin 5) (Fin 9) false (start hanging true) = Ok (Fin z) s'.
Proof.
  split; [exact toy_pop_undoes_push|]. split; [exact toy_moves_unless_over|].
  split; [lia|]. split; [simpl; lia|].
  apply (proj1 (search_scores_finite toy_pop_undoes_push toy_moves_unless_over)
           2 3%nat (Fin 5) (Fin 9) false (start hanging true)); [lia|simpl; lia].
Defined.

Lemma search_terminates_witness :
  0 <= 2 /\ (Z.to_nat 2 < 3)%nat /\
  minimax 3 2 NegInf PosInf true (start hanging true) <> OutOfFuel /\
  get_best_move 2 2 (start hanging true) <> OutOfFuel.
Proof.
  split; [lia|]. split; [simpl; lia|]. split.
  - apply (proj1 (search_terminates (orc := toy))); [lia|simpl; lia].
  - apply (proj2 (proj2 (search_terminates (orc := toy)))); [lia|simpl; lia].
Defined.

End ToyInstances.

(** * Further properties of the search *)

Lemma slt_trans a b c : slt a b = true -> slt b c = true -> slt a c = true.
Proof. intros; score_cases. Qed.

Lemma sle_slt_trans a b c : sle a b = true -> slt b c = true -> slt a c = true.
Proof. intros; score_cases. Qed.

Lemma slt_sle a b : slt a b = true -> sle a b = true.
Proof. intros; score_cases. Qed.

Lemma slt_neg_inf_finite v : is_finite v = true -> slt NegInf v = true.
Proof. destruct v; intros; try discriminate; reflexivity. Qed.

Lemma slt_finite_pos_inf v : is_finite v = true -> slt v PosInf = true.
Proof. destruct v; intros; try discriminate; reflexivity. Qed.

Section SearchExtras.

Context {orc : Oracle}.

(** X1.  The fail-soft contract of [minimax] for any window
    [alpha < beta] and depth [d >= 0]: it returns, leaves the board as it
    was, and its result [r] is an upper bound of the exact minimax value
    when [r <= alpha], the exact value when [alpha < r < beta], and a lower
    bound when [beta <= r]. *)
Theorem minimax_fail_soft
    (Hpop : pop_undoes_push) depth fuel alpha beta mx b tr :
  0 <= depth -> (Z.to_nat depth < fuel)%nat -> slt alpha beta = true ->
  exists r tr',
    minimax fuel depth alpha beta mx (mkState b tr)
    = Ok r (mkState b (tr ++ tr')) /\
    let v := exhaustive_minimax (Z.to_nat depth) b mx in
    (sle r alpha = true -> sle v r = true) /\
    (slt alpha r = true -> slt r beta = true -> r = v) /\
    (sle beta r = true -> sle r v = true).
Proof.
  intros Hd Hf Hw.
  destruct (minimax_run Hpop (Z.to_nat depth) fuel Hf alpha beta mx b tr)
    as [tr' E].
  rewrite Z2Nat.id in E by exact Hd.
  exists (ab (Z.to_nat depth) b alpha beta mx), tr'. split; [exact E|].
  destruct (ab_bracket (Z.to_nat depth) b alpha beta mx Hw) as (H1 & H2 & H3).
  cbv zeta. repeat split; auto. intros; symmetry; auto.
Qed.

(** ** The first best move *)

Lemma get_best_move_body_value (Hpop : pop_undoes_push) fuel depth :
  1 <= depth -> (Z.to_nat (depth - 1) < fuel)%nat ->
  forall move st b tr,
  exists tr',
    get_best_move_body fuel depth move st (mkState b tr)
    = Ok (Continue (choose (turn b) (root_value depth b) st move))
         (mkState b (tr ++ tr')).
Proof.
  intros Hd Hf move [bm bv] b tr.
  rewrite get_best_move_body_unfold. cbv zeta. cbn [board trace].
  destruct (minimax_run Hpop (Z.to_nat (depth - 1)) fuel Hf NegInf PosInf
              (negb (turn (push b move))) (push b move) (tr ++ [EvPush move]))
    as [tr1 E1].
  rewrite Z2Nat.id in E1 by lia. rewrite E1. cbn [board trace].
  rewrite Hpop, ab_full_window. cbv beta iota.
  exists (EvPush move :: tr1 ++ [EvPop]). unfold choose, improves, root_value.
  cbn [snd]. rewrite <- !app_assoc. cbn [app].
  destruct (_ || _); reflexivity.
Qed.

Lemma get_best_move_loop_value (Hpop : pop_undoes_push) fuel depth :
  1 <= depth -> (Z.to_nat (depth - 1) < fuel)%nat ->
  forall ms st b tr,
  exists tr',
    for_each ms (get_best_move_body fuel depth) st (mkState b tr)
    = Ok (fold_left (choose (turn b) (root_value depth b)) ms st)
         (mkState b (tr ++ tr')).
Proof.
  intros Hd Hf. induction ms as [|move ms IH]; intros st b tr.
  - exists []. now rewrite app_nil_r.
  - rewrite for_each_cons.
    destruct (get_best_move_body_value Hpop fuel depth Hd Hf move st b tr)
      as [tr1 E1].
    rewrite E1.
    destruct (IH (choose (turn b) (root_value depth b) st move) b (tr ++ tr1))
      as [tr2 E2].
    rewrite E2. cbn [fold_left]. rewrite <- app_assoc. eauto.
Qed.

(** The values of the root moves are finite where the oracle has a move
    wherever the game is not over. *)
Lemma root_value_finite (Hpop : pop_undoes_push) (Hmoves : moves_unless_over)
    depth b m :
  is_finite (root_value depth b m) = true.
Proof.
  unfold root_value. set (n := Z.to_nat (depth - 1)).
  destruct (minimax_run Hpop n (S n) ltac:(lia) NegInf PosInf
              (negb (turn (push b m))) (push b m) []) as [tr E].
  rewrite ab_full_window in E.
  exact (minimax_finite Hmoves _ _ _ _ _ _ _ _ E).
Qed.

Lemma improves_false_trans t a b c :
  improves t a b = false -> improves t c b = true -> improves t c a = true.
Proof.
  unfold improves; intros H1 H2; destruct t; cbn [andb orb negb] in *;
    rewrite ?orb_false_r in *; score_cases.
Qed.

Lemma improves_trans t a b c :
  improves t a b = true -> improves t c a = true -> improves t c b = true.
Proof.
  unfold improves; intros H1 H2; destruct t; cbn [andb orb negb] in *;
    rewrite ?orb_false_r in *; score_cases.
Qed.

Lemma improves_init t v :
  is_finite v = true -> improves t v (if t then NegInf else PosInf) = true.
Proof.
  unfold improves. destruct t; cbn [andb orb negb]; intros H.
  - now rewrite slt_neg_inf_finite.
  - now apply slt_finite_pos_inf.
Qed.

Lemma choose_earliest_best t value (Hfin : forall m, is_finite (value m) = true)
    (ms : list Move) :
  forall seen st,
    earliest_best t value seen st ->
    earliest_best t value (seen ++ ms) (fold_left (choose t value) ms st).
Proof.
  induction ms as [|m ms IH]; intros seen st H.
  - now rewrite app_nil_r.
  - cbn [fold_left].
    replace (seen ++ m :: ms) with ((seen ++ [m]) ++ ms)
      by (now rewrite <- app_assoc).
    apply IH. unfold choose.
    destruct H as [[-> ->]|(pre & m0 & post & -> & -> & Hpre & Hpost)];
      cbn [snd].
    + rewrite improves_init by apply Hfin.
      right. exists [], m, []. repeat split; auto; intros x [].
    + destruct (improves t (value m) (value m0)) eqn:E.
      * right. exists (pre ++ m0 :: post), m, [].
        split; [now rewrite <- app_assoc|].
        split; [reflexivity|]. split; [|intros x []].
        intros x Hx. apply in_app_or in Hx.
        destruct Hx as [Hx|[<-|Hx]]; auto.
        -- eapply improves_trans; eauto.
        -- eapply improves_false_trans; eauto.
      * right. exists pre, m0, (post ++ [m]).
        split; [now rewrite <- app_assoc|].
        split; [reflexivity|]. split; [exact Hpre|].
        intros x Hx. apply in_app_or in Hx.
        destruct Hx as [Hx|[<-|[]]]; auto.
Qed.

(** X2.  With a lawful oracle and a depth [d >= 1], [get_best_move]
    returns the first of the best root moves: the move [m] it returns is a
    legal move, the value of every legal move before it is strictly worse
    for the side to move ([<] for White, [>] for Black), and no legal move
    after it has a strictly better value. *)
Theorem get_best_move_first_best
    (Hpop : pop_undoes_push) (Hmoves : moves_unless_over)
    depth fuel b tr m s' :
  1 <= depth -> (Z.to_nat (depth - 1) < fuel)%nat ->
  get_best_move fuel depth (mkState b tr) = Ok (Some m) s' ->
  exists pre post,
    legal_moves b = pre ++ m :: post /\
    (forall x, In x pre ->
       improves (turn b) (root_value depth b m) (root_value depth b x) = true) /\
    (forall x, In x post ->
       improves (turn b) (root_value depth b x) (root_value depth b m) = false).
Proof.
  intros Hd Hf. rewrite get_best_move_unfold. cbn [board trace].
  destruct (get_best_move_loop_value Hpop fuel depth Hd Hf (legal_moves b)
              (None, if turn b then NegInf else PosInf) b (tr ++ [EvLegalMoves]))
    as [tr' E].
  rewrite E. intros H; inversion H as [[Hm Hs]]; clear H.
  pose proof (choose_earliest_best (turn b) (root_value depth b)
                (root_value_finite Hpop Hmoves depth b) (legal_moves b) []
                (None, if turn b then NegInf else PosInf)
                (or_introl (conj eq_refl eq_refl))) as Hbest.
  cbn [app] in Hbest.
  destruct Hbest as [[_ Hst]|(pre & m0 & post & Hl & Hst & Hpre & Hpost)];
    rewrite Hst in Hm; cbn [fst] in Hm; [discriminate|].
  inversion Hm; subst m0. eauto.
Qed.

(** X3.  Colour symmetry of the evaluation: on a position that has, for
    each of the six piece kinds, as many White pieces as another has Black
    ones and conversely, [evaluate_board] returns the opposite value. *)
Theorem evaluate_board_mirror (s s' : state) (e : Z) :
  (forall piece_type, 1 <= piece_type <= 6 ->
     count (board s') piece_type WHITE = count (board s) piece_type BLACK /\
     count (board s') piece_type BLACK = count (board s) piece_type WHITE) ->
  evaluate_board s = Ok e s ->
  evaluate_board s' = Ok (- e) s'.
Proof.
  intros Hswap H. unfold evaluate_board, gets in *.
  injection H as <-. f_equal.
  rewrite (eval_loop_material (board s)), (eval_loop_material (board s')).
  unfold material.
  destruct (Hswap PAWN ltac:(unfold PAWN; lia)) as [-> ->].
  destruct (Hswap KNIGHT ltac:(unfold KNIGHT; lia)) as [-> ->].
  destruct (Hswap BISHOP ltac:(unfold BISHOP; lia)) as [-> ->].
  destruct (Hswap ROOK ltac:(unfold ROOK; lia)) as [-> ->].
  destruct (Hswap QUEEN ltac:(unfold QUEEN; lia)) as [-> ->].
  destruct (Hswap KING ltac:(unfold KING; lia)) as [-> ->].
  lia.
Qed.

(** ** Negative depths *)

(** Outcomes with the same observation: the cases that do not return. *)
Ltac obs_cases H :=
  cbn [observe] in *; try discriminate; try reflexivity;
  try (let Hb := fresh in injection H as -> Hb; now rewrite Hb).

Lemma for_each_observe {X S} (body1 body2 : X -> S -> M (loop_ctl S))
    (xs : list X) :
  (forall x st s s',
      board s = board s' ->
      observe (body1 x st s) = observe (body2 x st s')) ->
  forall st s s',
    board s = board s' ->
    observe (for_each xs body1 st s) = observe (for_each xs body2 st s').
Proof.
  intros Hbody. induction xs as [|x xs IH]; intros st s s' Hb.
  - cbn. now rewrite Hb.
  - rewrite !for_each_cons. specialize (Hbody x st s s' Hb).
    destruct (body1 x st s) as [c1 s1| |], (body2 x st s') as [c2 s2| |];
      obs_cases Hbody.
    injection Hbody as -> Hb1. destruct c2 as [st1|st1].
    + now apply IH.
    + cbn [observe]. now rewrite Hb1.
Qed.

Lemma minimax_negative_depth (fuel : nat) :
  forall d d' alpha beta mx s s',
    d < 0 -> d' < 0 -> board s = board s' ->
    observe (minimax fuel d alpha beta mx s)
    = observe (minimax fuel d' alpha beta mx s').
Proof.
  induction fuel as [|fuel IH]; intros d d' alpha beta mx s s' Hd Hd' Hb.
  - reflexivity.
  - rewrite !minimax_unfold. cbv zeta.
    replace (d =? 0) with false by (symmetry; apply Z.eqb_neq; lia).
    replace (d' =? 0) with false by (symmetry; apply Z.eqb_neq; lia).
    cbn [orb]. rewrite Hb. destruct (is_game_over (board s')); [reflexivity|].
    match goal with
    | |- observe (match for_each ?ms ?b1 ?w ?s1 with _ => _ end)
         = observe (match for_each _ ?b2 _ ?s2 with _ => _ end) =>
        pose proof (for_each_observe b1 b2 ms) as Hloop;
          specialize (fun H => Hloop H w s1 s2)
    end.
    cbn [board] in Hloop.
    assert (Hbody : forall (x : Move) (st : window) (s0 s0' : state),
               board s0 = board s0' ->
               observe (minimax_body (minimax fuel) d mx x st s0)
               = observe (minimax_body (minimax fuel) d' mx x st s0')).
    { intros move [[best a] b] s0 s0' Hb0. rewrite !minimax_body_unfold.
      match goal with
      | |- observe (match minimax fuel ?x1 a b ?m ?t1 with _ => _ end)
           = observe (match minimax fuel ?x2 a b ?m ?t2 with _ => _ end) =>
          pose proof (IH x1 x2 a b m t1 t2 ltac:(lia) ltac:(lia)
                        ltac:(cbn [board]; now rewrite Hb0)) as Hc
      end.
      destruct (minimax fuel (d - 1) _ _ _ _) as [ev s2| |],
               (minimax fuel (d' - 1) _ _ _ _) as [ev' s2'| |];
        obs_cases Hc.
      injection Hc as -> Hb2. rewrite Hb2.
      destruct (pop (board s2')); cbn [observe]; rewrite ?Hb2; reflexivity. }
    specialize (Hloop Hbody eq_refl).
    destruct (for_each _ _ _ _) as [w1 s1| |], (for_each _ _ _ _) as [w2 s2| |];
      obs_cases Hloop.
Qed.

(** X4.  A negative depth switches the depth bound off: the test
    [depth == 0] is never met again, so for any two negative depths
    [minimax] returns the same value (or fails the same way) and leaves
    the same board; it stops only where the game is over.  Hence
    [get_best_move] with a depth [<= 0] does not search 0 plies: its
    outcome is the same for every depth [<= 0]. *)
Theorem negative_depth_unbounded :
  (forall fuel d d' alpha beta mx s,
      d < 0 -> d' < 0 ->
      observe (minimax fuel d alpha beta mx s)
      = observe (minimax fuel d' alpha beta mx s)) /\
  (forall fuel d d' s,
      d <= 0 -> d' <= 0 ->
      observe (get_best_move fuel d s) = observe (get_best_move fuel d' s)).
Proof.
  split.
  - intros. now apply minimax_negative_depth.
  - intros fuel d d' s Hd Hd'. rewrite !get_best_move_unfold.
    match goal with
    | |- observe (match for_each ?ms ?b1 ?w ?s1 with _ => _ end)
         = observe (match for_each _ ?b2 _ _ with _ => _ end) =>
        pose proof (for_each_observe b1 b2 ms) as Hloop;
          specialize (fun H => Hloop H w s1 s1)
    end.
    assert (Hbody : forall (x : Move) (st : option Move * Score)
                      (s0 s0' : state),
               board s0 = board s0' ->
               observe (get_best_move_body fuel d x st s0)
               = observe (get_best_move_body fuel d' x st s0')).
    { intros move [bm bv] s0 s0' Hb0. rewrite !get_best_move_body_unfold.
      cbv zeta. cbn [board]. rewrite Hb0.
      match goal with
      | |- observe (match minimax fuel ?x1 ?a ?b ?m ?t1 with _ => _ end)
           = observe (match minimax fuel ?x2 _ _ _ ?t2 with _ => _ end) =>
          pose proof (minimax_negative_depth fuel x1 x2 a b m t1 t2
                        ltac:(lia) ltac:(lia) ltac:(reflexivity)) as Hc
      end.
      destruct (minimax fuel (d - 1) _ _ _ _) as [ev s2| |],
               (minimax fuel (d' - 1) _ _ _ _) as [ev' s2'| |];
        obs_cases Hc.
      injection Hc as -> Hb2. rewrite Hb2.
      destruct (pop (board s2')); cbn [observe]; rewrite ?Hb2; reflexivity. }
    specialize (Hloop Hbody eq_refl).
    destruct (for_each _ _ _ _) as [w1 s1| |], (for_each _ _ _ _) as [w2 s2| |];
      obs_cases Hloop.
Qed.


End SearchExtras.

(** * Properties of the game around the search *)

Section GameProperties.

Context {orc : Oracle} {rules : Rules}.

(** ** Squares and pixels *)

(** X5.  A click selects what is drawn under it: every pixel of the window
    lies in the cell of one row [r] and one column [c] of the 8 x 8 grid
    [draw_board] paints, and the piece standing on the square the mouse
    handlers compute for the pixel is the piece [draw_board] draws in that
    cell. *)
Theorem click_selects_drawn_square (imgs : list String.string) (b : Board)
    (x y : Z) :
  0 <= x < WIDTH -> 0 <= y < HEIGHT ->
  exists r c,
    In r (range 0 DIMENSION) /\ In c (range 0 DIMENSION) /\
    c * SQ_SIZE <= x < c * SQ_SIZE + SQ_SIZE /\
    r * SQ_SIZE <= y < r * SQ_SIZE + SQ_SIZE /\
    forall piece,
      piece_at b (square_at (x, y)) = Some piece ->
      In (piece_image piece) imgs ->
      exists rgb,
        draw_cell imgs b None r c
        = inr [FillRect rgb (c * SQ_SIZE) (r * SQ_SIZE) SQ_SIZE SQ_SIZE;
               Blit (piece_image piece) (c * SQ_SIZE) (r * SQ_SIZE)].
Proof.
  intros Hx Hy. exists (y / SQ_SIZE), (x / SQ_SIZE).
  change SQ_SIZE with 64 in *. change WIDTH with 512 in *.
  change HEIGHT with 512 in *. change DIMENSION with 8 in *.
  assert (Hc : 0 <= x / 64 < 8) by (split; [apply Z.div_pos|apply Z.div_lt_upper_bound]; lia).
  assert (Hr : 0 <= y / 64 < 8) by (split; [apply Z.div_pos|apply Z.div_lt_upper_bound]; lia).
  assert (Hin : forall k, 0 <= k < 8 -> In k (range 0 8)).
  { intros k Hk. unfold range. apply in_map_iff. exists (Z.to_nat k).
    split; [lia|]. apply in_seq. cbn. lia. }
  pose proof (Z.div_mod x 64 ltac:(lia)) as Ex.
  pose proof (Z.mod_pos_bound x 64 ltac:(lia)) as Bx.
  pose proof (Z.div_mod y 64 ltac:(lia)) as Ey.
  pose proof (Z.mod_pos_bound y 64 ltac:(lia)) as By.
  repeat split; auto; try lia.
  intros piece Hp Hk. unfold draw_cell, square_at in *. cbn [fst snd] in Hp.
  change SQ_SIZE with 64 in *. change DIMENSION with 8 in *.
  rewrite Hp. unfold blit.
  destruct (in_dec String.string_dec (piece_image piece) imgs); [|contradiction].
  eexists. reflexivity.
Qed.

(** ** The move summary *)

Lemma summary_loop_nth (ml : list Move) :
  forall y i m,
    nth_error ml i = Some m ->
    nth_error (summary_loop ml y) i
    = Some (TextAt 20 (move_str m) 10 (y + 30 * Z.of_nat i)).
Proof.
  induction ml as [|m0 ml IH]; intros y i m H.
  - destruct i; discriminate.
  - destruct i as [|i]; cbn [nth_error summary_loop] in *.
    + injection H as ->. do 2 f_equal. cbn. lia.
    + rewrite (IH (y + 30) i m H). do 2 f_equal. rewrite Nat2Z.inj_succ. lia.
Qed.

(** X6.  [display_move_summary] writes the [i]-th move of the game 30
    pixels below the one before, starting 100 pixels above the bottom of
    the window: only the first four moves start inside the window, every
    later move is written below its bottom edge. *)
Theorem move_summary_leaves_window (ml : list Move) (i : nat) (m : Move) :
  nth_error ml i = Some m ->
  exists y,
    nth_error (display_move_summary ml) i
    = Some (TextAt 20 (move_str m) 10 y) /\
    y = HEIGHT - 100 + 30 * Z.of_nat i /\
    (y < HEIGHT <-> (i < 4)%nat).
Proof.
  intros H. eexists. split; [apply summary_loop_nth, H|].
  split; [reflexivity|]. unfold HEIGHT. lia.
Qed.

(** ** Drawing *)

Lemma then_draw_nil_r (d : drawing) : then_draw d (inr []) = d.
Proof. destruct d; cbn; [reflexivity|now rewrite app_nil_r]. Qed.

(** X7.  The piece dragged from square 0 (a1) vanishes: [draw_board] hides
    the piece of the dragged square in its cell, and it draws the piece
    under the cursor only if the number of the dragged square is not 0.
    With square 0 the cursor position plays no role at all. *)
Theorem dragged_piece_of_square_zero_vanishes
    (imgs : list String.string) (b : Board) (d x y : Z) (piece : Piece) :
  piece_at b d = Some piece ->
  In (piece_image piece) imgs ->
  (forall r c, square c (DIMENSION - 1 - r) = d ->
     exists rgb,
       draw_cell imgs b (Some d) r c
       = inr [FillRect rgb (c * SQ_SIZE) (r * SQ_SIZE) SQ_SIZE SQ_SIZE]) /\
  (d <> 0 ->
     draw_board imgs b (Some d) (Some (x, y))
     = then_draw (draw_board imgs b (Some d) None)
         (inr [Blit (piece_image piece) (x - SQ_SIZE / 2) (y - SQ_SIZE / 2)])) /\
  (d = 0 ->
     draw_board imgs b (Some d) (Some (x, y)) = draw_board imgs b (Some d) None).
Proof.
  intros Hp Hk. split; [|split].
  - intros r c Hsq. unfold draw_cell. rewrite Hsq, Hp, Z.eqb_refl. cbn.
    eexists. reflexivity.
  - intros Hd. unfold draw_board, draw_dragged. cbn [truthy_int truthy_pos].
    replace (d =? 0) with false by (symmetry; now apply Z.eqb_neq).
    cbn [negb andb]. rewrite Hp. unfold blit.
    destruct (in_dec String.string_dec (piece_image piece) imgs); [|contradiction].
    now rewrite then_draw_nil_r.
  - intros ->. reflexivity.
Qed.

Lemma piece_image_loaded (Hsym : symbols_are_letters) b sq p :
  piece_at b sq = Some p -> In (piece_image p) loaded_images.
Proof.
  intros Hp. specialize (Hsym b sq p Hp). unfold piece_image.
  cbn [In] in Hsym.
  repeat (destruct Hsym as [<-|Hsym]);
    try (destruct (color p); cbn; tauto).
Qed.

Lemma blit_loaded imgs key x y :
  In key imgs -> blit imgs key x y = inr [Blit key x y].
Proof.
  intros H. unfold blit.
  destruct (in_dec String.string_dec key imgs); [reflexivity|contradiction].
Qed.

Lemma draw_cell_loaded (Hsym : symbols_are_letters) b dp r c :
  exists l, draw_cell loaded_images b dp r c = inr l.
Proof.
  unfold draw_cell.
  destruct (piece_at b (square c (DIMENSION - 1 - r))) as [p|] eqn:Hp;
    [|cbn; eauto].
  destruct (match dp with None => true | Some d => _ end); [|cbn; eauto].
  rewrite (blit_loaded _ _ _ _ (piece_image_loaded Hsym _ _ _ Hp)). cbn. eauto.
Qed.

Lemma fold_draw_ok {X} (f : X -> drawing) (xs : list X) :
  (forall x, exists l, f x = inr l) ->
  forall l0, exists l, fold_left (fun d x => then_draw d (f x)) xs (inr l0) = inr l.
Proof.
  intros Hf. induction xs as [|x xs IH]; intros l0; cbn [fold_left]; eauto.
  destruct (Hf x) as [l ->]. cbn. apply IH.
Qed.

Lemma draw_cells_loaded (Hsym : symbols_are_letters) b dp (rows : list Z) :
  forall l0, exists l,
    fold_left
      (fun d r =>
         fold_left
           (fun d c => then_draw d (draw_cell loaded_images b dp r c))
           (range 0 DIMENSION) d)
      rows (inr l0) = inr l.
Proof.
  induction rows as [|r rows IH]; intros l0; cbn [fold_left]; eauto.
  destruct (fold_draw_ok (draw_cell loaded_images b dp r) (range 0 DIMENSION)
              (draw_cell_loaded Hsym b dp r) l0) as [l ->].
  apply IH.
Qed.

Lemma draw_dragged_loaded (Hsym : symbols_are_letters)
    (b : Board) (dp : option Z) (dpos : option (Z * Z)) :
  (forall sq, dp = Some sq -> piece_at b sq <> None) ->
  exists l, draw_dragged loaded_images b dp dpos = inr l.
Proof.
  intros Hdrag. unfold draw_dragged.
  destruct (truthy_int dp && truthy_pos dpos); [|eauto].
  destruct dp as [d|]; [|eauto]. destruct dpos as [[x y]|]; [|eauto].
  destruct (piece_at b d) as [p|] eqn:Hp; [|now destruct (Hdrag d eq_refl)].
  rewrite (blit_loaded _ _ _ _ (piece_image_loaded Hsym _ _ _ Hp)). eauto.
Qed.

(** X8.  [draw_board] does not raise: with the twelve images of
    [load_resources] and a library whose pieces have the six letters as
    symbols, every key it looks up in [IMAGES] is there, and it reads no
    attribute of [None] as long as the dragged square holds a piece. *)
Theorem draw_board_does_not_raise (Hsym : symbols_are_letters)
    (b : Board) (dp : option Z) (dpos : option (Z * Z)) :
  (forall sq, dp = Some sq -> piece_at b sq <> None) ->
  exists l, draw_board loaded_images b dp dpos = inr l.
Proof.
  intros Hdrag. unfold draw_board.
  destruct (draw_cells_loaded Hsym b dp (range 0 DIMENSION) []) as [cells ->].
  destruct (draw_dragged_loaded Hsym b dp dpos Hdrag) as [dragged ->].
  exists (cells ++ dragged). reflexivity.
Qed.

(** ** The event loop *)

Lemma announce_fields b g :
  dragging_piece (announce b g) = dragging_piece g /\
  dragging_pos (announce b g) = dragging_pos g /\
  move_list (announce b g) = move_list g /\
  images (announce b g) = images g.
Proof.
  unfold announce. destruct (is_check b), (is_checkmate b); cbn; auto.
Qed.

Lemma make_unfold move g s :
  make move g s
  = Ok (mkGame (running g) (dragging_piece g) (dragging_pos g)
               (move_list g ++ [move]) (images g)
               (shown g ++ play_move_sound move (board s)))
       (mkState (push (board s) move) (trace s ++ [EvPush move])).
Proof. reflexivity. Qed.

Lemma get_best_move_legal (Hpop : pop_undoes_push) (Hmoves : moves_unless_over)
    fuel depth s m s' :
  get_best_move fuel depth s = Ok (Some m) s' ->
  In m (legal_moves (board s)) /\ board s' = board s.
Proof.
  intros H. split; [|exact (proj1 (get_best_move_restored Hpop _ _ _ _ _ H))].
  rewrite get_best_move_unfold in H.
  destruct (for_each _ _ _ _) as [st s1| |] eqn:E; try discriminate.
  injection H as Hst _.
  apply (get_best_move_loop Hpop Hmoves) in E; [|left; split; reflexivity].
  destruct E as [[_ ->]|(_ & _ & m' & Hm & Hin)]; [discriminate|].
  rewrite Hm in Hst. injection Hst as ->.
  destruct Hin as [Hin|Hin]; [exact Hin|discriminate].
Qed.

(** X9.  The engine replies only where the game is not over, and only
    with a legal move of the position it was asked about: after [reply]
    either nothing was played and the board is as before, or one legal
    move was pushed and recorded in [move_list]. *)
Theorem engine_reply_is_legal
    (Hpop : pop_undoes_push) (Hmoves : moves_unless_over)
    fuel g s g' s' :
  reply fuel g s = Ok g' s' ->
  (move_list g' = move_list g /\ board s' = board s)
  \/ exists m,
       is_game_over (board s) = false /\
       In m (legal_moves (board s)) /\
       move_list g' = move_list g ++ [m] /\
       board s' = push (board s) m.
Proof.
  unfold reply. destruct (is_game_over (board s)) eqn:Hover; cbn [negb].
  - intros H; injection H as <- <-. auto.
  - destruct (get_best_move fuel 3 s) as [[m|] s1| |] eqn:E; try discriminate.
    + destruct (get_best_move_legal Hpop Hmoves _ _ _ _ _ E) as [Hin Hb].
      destruct (move_bool m).
      * rewrite make_unfold. intros H; injection H as <- <-.
        right. exists m.
        match goal with |- context [announce ?b0 ?g0] =>
          destruct (announce_fields b0 g0) as (_ & _ & -> & _)
        end.
        cbn [board move_list]. rewrite Hb. auto.
      * intros H; injection H as <- <-. auto.
    + intros H; injection H as <- <-. left. split; auto.
      exact (proj1 (get_best_move_restored Hpop _ _ _ _ _ E)).
Qed.

Lemma recorded_refl s g : recorded s g s g.
Proof. exists []. now rewrite app_nil_r. Qed.

Lemma recorded_same s g s' g' :
  move_list g' = move_list g -> board s' = board s -> recorded s g s' g'.
Proof. intros Hm Hb. exists []. now rewrite app_nil_r. Qed.

Lemma recorded_trans s1 g1 s2 g2 s3 g3 :
  recorded s1 g1 s2 g2 -> recorded s2 g2 s3 g3 -> recorded s1 g1 s3 g3.
Proof.
  intros (m1 & H1 & B1) (m2 & H2 & B2). exists (m1 ++ m2).
  now rewrite H2, H1, B2, B1, fold_left_app, app_assoc.
Qed.

Lemma reply_recorded (Hpop : pop_undoes_push) fuel g s g' s' :
  reply fuel g s = Ok g' s' -> recorded s g s' g'.
Proof.
  unfold reply. destruct (negb (is_game_over (board s))).
  - destruct (get_best_move fuel 3 s) as [[m|] s1| |] eqn:E; try discriminate.
    + pose proof (proj1 (get_best_move_restored Hpop _ _ _ _ _ E)) as Hb.
      destruct (move_bool m).
      * rewrite make_unfold. intros H; injection H as <- <-.
        exists [m].
        match goal with |- context [announce ?b0 ?g0] =>
          destruct (announce_fields b0 g0) as (_ & _ & -> & _)
        end.
        cbn. now rewrite Hb.
      * intros H; injection H as <- <-. exists []. now rewrite app_nil_r.
    + intros H; injection H as <- <-. exists [].
      rewrite app_nil_r. split; auto.
      exact (proj1 (get_best_move_restored Hpop _ _ _ _ _ E)).
  - intros H; injection H as <- <-. apply recorded_refl.
Qed.

Lemma reply_fields fuel g s g' s' :
  reply fuel g s = Ok g' s' -> images g' = images g.
Proof.
  unfold reply. destruct (negb (is_game_over (board s))).
  - destruct (get_best_move fuel 3 s) as [[m|] s1| |]; try discriminate.
    + destruct (move_bool m).
      * rewrite make_unfold. intros H; injection H as <- _.
        now rewrite (proj2 (proj2 (proj2 (announce_fields _ _)))).
      * intros H; injection H as <- _. reflexivity.
    + intros H; injection H as <- _. reflexivity.
  - intros H; injection H as <- _. reflexivity.
Qed.

Lemma handle_event_recorded (Hpop : pop_undoes_push) fuel event g s g' s' :
  handle_event fuel event g s = Ok (inr g') s' -> recorded s g s' g'.
Proof.
  destruct event as [|loc|loc|loc|]; cbn [handle_event]; unfold ret.
  - intros H; injection H as <- <-. now apply recorded_same.
  - intros H; injection H as <- <-. unfold on_mouse_down.
    destruct (_ && _); now apply recorded_same.
  - unfold on_mouse_up. destruct (dragging_piece g) as [from|].
    + destruct (is_legal _ _).
      * destruct (piece_at (board s) from) as [piece|]; [|discriminate].
        rewrite make_unfold.
        match goal with |- context [reply fuel ?g1 ?s1] =>
          destruct (reply fuel g1 s1) as [g2 s2| |] eqn:E; try discriminate;
            apply (reply_recorded Hpop) in E
        end.
        intros H; injection H as <- <-.
        destruct E as (ms & Hm & Hb).
        rewrite (proj1 (proj2 (proj2 (announce_fields _ _)))) in Hm.
        cbn [move_list board] in *.
        match type of Hm with _ = (_ ++ [?mv]) ++ _ => exists (mv :: ms) end.
        cbn [clear_drag move_list fold_left]. rewrite Hm, <- app_assoc. auto.
      * intros H; injection H as <- <-. now apply recorded_same.
    + intros H; injection H as <- <-. now apply recorded_same.
  - intros H; injection H as <- <-. unfold on_mouse_motion.
    destruct (dragging_piece g); now apply recorded_same.
  - intros H; injection H as <- <-. now apply recorded_same.
Qed.

Lemma handle_events_recorded (Hpop : pop_undoes_push) fuel events :
  forall g s g' s',
    handle_events fuel events g s = Ok (inr g') s' -> recorded s g s' g'.
Proof.
  induction events as [|event rest IH]; intros g s g' s'; cbn [handle_events].
  - unfold ret. intros H; injection H as <- <-. apply recorded_refl.
  - destruct (handle_event fuel event g s) as [[e|g1] s1| |] eqn:E;
      try discriminate.
    intros H. eapply recorded_trans; [eapply handle_event_recorded|]; eauto.
Qed.

Lemma draw_frame_recorded g b g' :
  draw_frame g b = inr g' -> move_list g' = move_list g.
Proof.
  unfold draw_frame. destruct (draw_board _ _ _ _); [discriminate|].
  intros H; injection H as <-. reflexivity.
Qed.

(** X10.  [move_list] is the record of the game: whatever events the loop
    handles, when it comes back the moves it appended to [move_list] are
    exactly the moves that were pushed on the board and not popped again,
    in order; from a new game the board is the starting board with
    [move_list] played on it. *)
Theorem move_list_records_the_board (Hpop : pop_undoes_push) fuel batches :
  forall g s g' s',
    frames fuel batches g s = Ok (inr g') s' ->
    exists ms,
      move_list g' = move_list g ++ ms /\
      board s' = fold_left push ms (board s).
Proof.
  induction batches as [|events rest IH]; intros g s g' s'; cbn [frames].
  - unfold ret. intros H; injection H as <- <-. apply recorded_refl.
  - destruct (running g).
    + unfold frame.
      destruct (handle_events fuel events g s) as [[e|g1] s1| |] eqn:E;
        try discriminate.
      destruct (draw_frame g1 (board s1)) as [e|g2] eqn:Ed; [discriminate|].
      intros H. apply IH in H. apply (handle_events_recorded Hpop) in E.
      apply draw_frame_recorded in Ed.
      destruct E as (m1 & H1 & B1), H as (m2 & H2 & B2).
      exists (m1 ++ m2).
      now rewrite H2, Ed, H1, B2, B1, fold_left_app, app_assoc.
    + unfold ret. intros H; injection H as <- <-. apply recorded_refl.
Qed.

Lemma drag_consistent_fields b g g' :
  dragging_piece g' = dragging_piece g -> dragging_pos g' = dragging_pos g ->
  drag_consistent b g -> drag_consistent b g'.
Proof. unfold drag_consistent. intros -> ->. auto. Qed.

Lemma drag_consistent_clear b g : drag_consistent b (clear_drag g).
Proof. split; cbn; [tauto|discriminate]. Qed.

Lemma handle_event_safe fuel event g s r s' :
  drag_consistent (board s) g ->
  handle_event fuel event g s = Ok r s' ->
  exists g', r = inr g' /\ drag_consistent (board s') g'
             /\ images g' = images g.
Proof.
  intros Hc.
  destruct event as [|loc|loc|loc|]; cbn [handle_event]; unfold ret.
  - intros H; injection H as <- <-. eexists. split; [reflexivity|].
    split; [|reflexivity]. now apply (drag_consistent_fields _ g).
  - intros H; injection H as <- <-. eexists. split; [reflexivity|].
    unfold on_mouse_down.
    destruct (piece_at (board s) (square_at loc)) eqn:Hp; cbn [andb];
      [|split; [exact Hc|reflexivity]].
    destruct (match color_at _ _ with Some c => _ | None => false end);
      [|split; [exact Hc|reflexivity]].
    split; [|reflexivity]. split; cbn.
    + split; discriminate.
    + intros sq Hsq. injection Hsq as <-. rewrite Hp. discriminate.
  - unfold on_mouse_up. destruct (dragging_piece g) as [from|] eqn:Hd.
    + destruct (is_legal _ _).
      * destruct (piece_at (board s) from) as [piece|] eqn:Hp;
          [|now destruct (proj2 Hc from Hd)].
        rewrite make_unfold.
        match goal with |- context [reply fuel ?g1 ?s1] =>
          destruct (reply fuel g1 s1) as [g2 s2| |] eqn:E; try discriminate;
            apply reply_fields in E
        end.
        intros H; injection H as <- <-. eexists. split; [reflexivity|].
        split; [apply drag_consistent_clear|].
        cbn [clear_drag images]. rewrite E.
        now rewrite (proj2 (proj2 (proj2 (announce_fields _ _)))).
      * intros H; injection H as <- <-. eexists. split; [reflexivity|].
        split; [apply drag_consistent_clear|reflexivity].
    + intros H; injection H as <- <-. eexists. split; [reflexivity|].
      split; [exact Hc|reflexivity].
  - intros H; injection H as <- <-. eexists. split; [reflexivity|].
    unfold on_mouse_motion. destruct (dragging_piece g) as [d|] eqn:Hd.
    + split; [|reflexivity]. split; cbn.
      * rewrite ?Hd. split; discriminate.
      * rewrite ?Hd. intros sq Hsq. apply (proj2 Hc). now rewrite Hd.
    + split; [exact Hc|reflexivity].
  - intros H; injection H as <- <-. eexists. split; [reflexivity|].
    split; [exact Hc|reflexivity].
Qed.

Lemma handle_events_safe fuel events :
  forall g s r s',
    drag_consistent (board s) g ->
    handle_events fuel events g s = Ok r s' ->
    exists g', r = inr g' /\ drag_consistent (board s') g'
               /\ images g' = images g.
Proof.
  induction events as [|event rest IH]; intros g s r s' Hc; cbn [handle_events].
  - unfold ret. intros H; injection H as <- <-. eauto.
  - destruct (handle_event fuel event g s) as [r1 s1| |] eqn:E; try discriminate.
    destruct (handle_event_safe _ _ _ _ _ _ Hc E) as (g1 & -> & Hc1 & Hi1).
    intros H. destruct (IH _ _ _ _ Hc1 H) as (g' & -> & Hc' & Hi').
    exists g'. repeat split; auto; try apply Hc'. congruence.
Qed.

(** X11.  The loop of [play_game] raises neither [KeyError] nor
    [AttributeError]: from a game with a consistent drag state and the
    images of [load_resources] (a new game is one), whatever the events,
    every pass that comes back has handled its events and drawn the board,
    and the drag state is consistent again: a drag position is kept
    exactly while a square is dragged, and that square holds a piece. *)
Theorem game_loop_does_not_raise (Hsym : symbols_are_letters) fuel batches :
  forall g s r s',
    drag_consistent (board s) g -> images g = loaded_images ->
    frames fuel batches g s = Ok r s' ->
    exists g',
      r = inr g' /\ drag_consistent (board s') g' /\ images g' = loaded_images.
Proof.
  induction batches as [|events rest IH]; intros g s r s' Hc Hi; cbn [frames].
  - unfold ret. intros H; injection H as <- <-. eauto.
  - destruct (running g).
    + unfold frame.
      destruct (handle_events fuel events g s) as [r1 s1| |] eqn:E;
        try discriminate.
      destruct (handle_events_safe _ _ _ _ _ _ Hc E) as (g1 & -> & Hc1 & Hi1).
      unfold draw_frame, draw_board. rewrite Hi1, Hi.
      destruct (draw_cells_loaded Hsym (board s1) (dragging_piece g1)
                  (range 0 DIMENSION) []) as [cells ->].
      destruct (draw_dragged_loaded Hsym (board s1) (dragging_piece g1)
                  (dragging_pos g1) (proj2 Hc1)) as [dragged ->].
      cbn [then_draw].
      apply IH; [exact Hc1|]. cbn. congruence.
    + unfold ret. intros H; injection H as <- <-. eauto.
Qed.

(** X12.  The side that mates wins: when the move pushed on [b] mates,
    [announce] stops the loop and shows as winner the side that was to
    move on [b], that is the side that made the move. *)
Theorem winner_is_the_side_that_moved (Hflip : push_flips_turn)
    (b : Board) (m : Move) (g : game) :
  is_checkmate (push b m) = true ->
  running (announce (push b m) g) = false /\
  In (TextCentered 40
        (String.append "Game Over! "
           (String.append (if turn b then "White" else "Black") " Wins!"))%string
        (WIDTH / 2) (HEIGHT / 2))
     (shown (announce (push b m) g)).
Proof.
  intros Hmate. unfold announce. rewrite Hmate, Hflip. split; [reflexivity|].
  cbv zeta. cbn [shown show]. apply in_or_app. right.
  destruct (turn b); cbn; auto 10.
Qed.


End GameProperties.

(** * The further theorems on the concrete game *)

Section ToyGameInstances.

Import Toy ToyGame.

Lemma toy_symbols_are_letters : symbols_are_letters (rules := toy_rules).
Proof.
  intros b sq p _. cbn. destruct (color p); cbn; tauto.
Qed.

Lemma minimax_fail_soft_witness :
  pop_undoes_push (orc := toy) /\ 0 <= 2 /\ (Z.to_nat 2 < 3)%nat /\
  slt (Fin (-3)) (Fin (-1)) = true /\
  exists r tr',
    minimax 3 2 (Fin (-3)) (Fin (-1)) true (start hanging true)
    = Ok r (mkState (board (start hanging true)) ([] ++ tr')) /\
    (sle (Fin (-1)) r = true ->
     sle r (exhaustive_minimax (Z.to_nat 2) (board (start hanging true)) true)
     = true).
Proof.
  split; [exact toy_pop_undoes_push|]. split; [lia|]. split; [simpl; lia|].
  split; [reflexivity|].
  destruct (minimax_fail_soft toy_pop_undoes_push 2 3 (Fin (-3)) (Fin (-1)) true
              (board (start hanging true)) [] ltac:(lia) ltac:(simpl; lia)
              eq_refl) as (r & tr' & E & _ & _ & H3).
  exists r, tr'. split; [exact E|exact H3].
Defined.

Lemma get_best_move_first_best_witness :
  pop_undoes_push (orc := toy) /\ moves_unless_over (orc := toy) /\
  1 <= 2 /\ (Z.to_nat (2 - 1) < 2)%nat /\
  exists s',
    get_best_move 2 2 (start hanging true) = Ok (Some 0%nat) s' /\
    exists pre post,
      legal_moves (board (start hanging true)) = pre ++ 0%nat :: post /\
      forall x, In x post ->
        improves true (root_value 2 (board (start hanging true)) x)
          (root_value 2 (board (start hanging true)) 0%nat) = false.
Proof.
  split; [exact toy_pop_undoes_push|]. split; [exact toy_moves_unless_over|].
  split; [lia|]. split; [simpl; lia|].
  eexists. split; [vm_compute; reflexivity|].
  destruct (get_best_move_first_best toy_pop_undoes_push toy_moves_unless_over
              2 2 (board (start hanging true)) [] 0%nat _
              ltac:(lia) ltac:(simpl; lia) ltac:(vm_compute; reflexivity))
    as (pre & post & Hl & _ & Hpost).
  exists pre, post. split; [exact Hl|exact Hpost].
Defined.

Lemma evaluate_board_mirror_witness :
  evaluate_board (start (leaf 3 1) true) = Ok 2 (start (leaf 3 1) true) /\
  evaluate_board (start (leaf 1 3) true) = Ok (- 2) (start (leaf 1 3) true).
Proof.
  split; [reflexivity|].
  apply (evaluate_board_mirror (start (leaf 3 1) true) (start (leaf 1 3) true) 2);
    [|reflexivity].
  intros piece_type _. unfold count, len. cbn.
  destruct (piece_type =? PAWN); split; reflexivity.
Defined.

Lemma negative_depth_unbounded_witness :
  -1 < 0 /\ -7 < 0 /\
  observe (minimax 4 (-1) NegInf PosInf true (start hanging true))
  = observe (minimax 4 (-7) NegInf PosInf true (start hanging true)) /\
  observe (get_best_move 4 0 (start hanging true))
  = observe (get_best_move 4 (-6) (start hanging true)).
Proof.
  split; [lia|]. split; [lia|]. split.
  - apply (proj1 (negative_depth_unbounded (orc := toy))); lia.
  - apply (proj2 (negative_depth_unbounded (orc := toy))); lia.
Defined.

Lemma click_selects_drawn_square_witness :
  0 <= 70 < WIDTH /\ 0 <= 400 < HEIGHT /\
  exists r c,
    In r (range 0 DIMENSION) /\ In c (range 0 DIMENSION) /\
    c * SQ_SIZE <= 70 < c * SQ_SIZE + SQ_SIZE /\
    r * SQ_SIZE <= 400 < r * SQ_SIZE + SQ_SIZE /\
    forall piece,
      piece_at (board opening) (square_at (70, 400)) = Some piece ->
      In (piece_image piece) loaded_images ->
      exists rgb,
        draw_cell loaded_images (board opening) None r c
        = inr [FillRect rgb (c * SQ_SIZE) (r * SQ_SIZE) SQ_SIZE SQ_SIZE;
               Blit (piece_image piece) (c * SQ_SIZE) (r * SQ_SIZE)].
Proof.
  split; [unfold WIDTH; lia|]. split; [unfold HEIGHT; lia|].
  apply (click_selects_drawn_square (rules := toy_rules) loaded_images (board opening) 70 400);
    [unfold WIDTH|unfold HEIGHT]; lia.
Defined.

Lemma move_summary_leaves_window_witness :
  nth_error [0; 1; 0; 1; 0]%nat 4 = Some 0%nat /\
  exists y,
    nth_error (display_move_summary (rules := toy_rules) [0; 1; 0; 1; 0]%nat) 4
    = Some (TextAt 20 (move_str 0%nat) 10 y) /\
    y = HEIGHT - 100 + 30 * Z.of_nat 4 /\
    (y < HEIGHT <-> (4 < 4)%nat).
Proof.
  split; [reflexivity|].
  apply (move_summary_leaves_window (rules := toy_rules)
           [0; 1; 0; 1; 0]%nat 4 0%nat). reflexivity.
Defined.

Lemma dragged_piece_of_square_zero_vanishes_witness :
  piece_at (board opening) 8 = Some (mkPiece PAWN WHITE) /\
  In (piece_image (mkPiece PAWN WHITE)) loaded_images /\
  draw_board loaded_images (board opening) (Some 8) (Some (40, 430))
  = then_draw (draw_board loaded_images (board opening) (Some 8) None)
      (inr [Blit (piece_image (mkPiece PAWN WHITE))
              (40 - SQ_SIZE / 2) (430 - SQ_SIZE / 2)]).
Proof.
  split; [reflexivity|]. split; [cbn; tauto|].
  apply (proj1 (proj2 (dragged_piece_of_square_zero_vanishes
                         (rules := toy_rules) loaded_images
                         (board opening) 8 40 430 (mkPiece PAWN WHITE)
                         ltac:(reflexivity) ltac:(cbn; tauto)))).
  lia.
Defined.

Lemma draw_board_does_not_raise_witness :
  symbols_are_letters (rules := toy_rules) /\
  (forall sq, Some 8 = Some sq -> piece_at (board opening) sq <> None) /\
  exists l,
    draw_board loaded_images (board opening) (Some 8) (Some (40, 430)) = inr l.
Proof.
  assert (H : forall sq, Some 8 = Some sq -> piece_at (board opening) sq <> None)
    by (intros sq Hsq; injection Hsq as <-; discriminate).
  split; [exact toy_symbols_are_letters|]. split; [exact H|].
  exact (draw_board_does_not_raise (rules := toy_rules) toy_symbols_are_letters (board opening)
           (Some 8) (Some (40, 430)) H).
Defined.

Lemma engine_reply_is_legal_witness :
  pop_undoes_push (orc := toy) /\ moves_unless_over (orc := toy) /\
  exists g' s',
    reply 4 new_game opening = Ok g' s' /\
    exists m,
      is_game_over (board opening) = false /\
      In m (legal_moves (board opening)) /\
      move_list g' = move_list new_game ++ [m] /\
      board s' = push (board opening) m.
Proof.
  split; [exact toy_pop_undoes_push|]. split; [exact toy_moves_unless_over|].
  do 2 eexists. split; [vm_compute; reflexivity|].
  destruct (engine_reply_is_legal (rules := toy_rules) toy_pop_undoes_push toy_moves_unless_over
              4 new_game opening _ _ ltac:(vm_compute; reflexivity))
    as [[H _]|H]; [discriminate H|exact H].
Defined.

Lemma move_list_records_the_board_witness :
  pop_undoes_push (orc := toy) /\
  exists g' s',
    frames 4 [one_drag] new_game opening = Ok (inr g') s' /\
    exists ms,
      move_list g' = move_list new_game ++ ms /\
      board s' = fold_left push ms (board opening).
Proof.
  split; [exact toy_pop_undoes_push|].
  do 2 eexists. split; [vm_compute; reflexivity|].
  eapply (move_list_records_the_board (rules := toy_rules) toy_pop_undoes_push 4 [one_drag]
            new_game opening).
  vm_compute; reflexivity.
Defined.

Lemma game_loop_does_not_raise_witness :
  symbols_are_letters (rules := toy_rules) /\
  drag_consistent (board opening) new_game /\
  images new_game = loaded_images /\
  exists r s',
    frames 4 [one_drag; [QUIT]] new_game opening = Ok r s' /\
    exists g',
      r = inr g' /\ drag_consistent (board s') g' /\ images g' = loaded_images.
Proof.
  assert (Hc : drag_consistent (board opening) new_game)
    by (split; cbn; [tauto|discriminate]).
  split; [exact toy_symbols_are_letters|]. split; [exact Hc|].
  split; [reflexivity|].
  do 2 eexists. split; [vm_compute; reflexivity|].
  eapply (game_loop_does_not_raise (rules := toy_rules) toy_symbols_are_letters 4
            [one_drag; [QUIT]] new_game opening); [exact Hc|reflexivity|].
  vm_compute; reflexivity.
Defined.

Lemma winner_is_the_side_that_moved_witness :
  push_flips_turn (orc := toy) /\
  is_checkmate (push (board (start (Node 1 0 false [leaf 1 0]) true)) 0%nat)
  = true /\
  running (announce (push (board (start (Node 1 0 false [leaf 1 0]) true)) 0%nat)
             new_game) = false.
Proof.
  split; [exact toy_push_flips_turn|]. split; [reflexivity|].
  exact (proj1 (winner_is_the_side_that_moved (rules := toy_rules) toy_push_flips_turn
                  (board (start (Node 1 0 false [leaf 1 0]) true)) 0%nat
                  new_game eq_refl)).
Defined.

End ToyGameInstances.
